(** * t-digest: scale function, centroids, merge engine, queries and codec

    A shallow embedding of [tdigest.hpp] (namespace [datasketches]).
    The header holds [scale_function], [centroid], [centroid_cmp], the
    data members and the constants; the member functions it only
    declares have their bodies in [tdigest_impl.hpp] and are modelled
    here from the specification of the library, each marked so.

    Numbers.  The C++ [double] is read as the real number it denotes
    (Stdlib [R]): rounding, infinities and NaN payloads are outside
    the model, so every statement about arithmetic below is a
    statement in exact real arithmetic.  Where the code hands out a
    quiet NaN explicitly, the result type says so ([fresult]).  The
    template parameter [T] of [tdigest<T>] stays abstract behind the
    class [FloatType]; [R] is its exact instance.  A [uint64_t] is a
    [Z] in [0, 2^64) and its addition wraps.  A second instance,
    [binary64_FloatType], is the IEEE 754 double itself (the primitive
    floats of Rocq): it computes, infinities and NaN included, and
    shows which statements need exact arithmetic.

    State.  The digest is a record passed from call to call.  The
    [const] members that compress before they answer ([serialize],
    [get_rank], [get_quantile]) return the digest as they leave it
    next to their result.
*)

From Stdlib Require Import Reals Lra Lia ZArith List Bool Sorted Permutation.
From Stdlib Require Import Floats.
From coqutil Require Import Byte Word.LittleEndianList.
Import ListNotations.

(* ================================================================= *)
(** ** Definitions *)
(* ================================================================= *)

(** *** [struct scale_function] (K_2 of the Java implementation) *)

Module scale_function.
Local Open Scope R_scope.

(** [template<typename Func> double limit(Func f, double x, double low, double high)] *)
Definition limit (f : R -> R) (x low high : R) : R :=
  if Rlt_dec x low then f low
  else if Rgt_dec x high then f high
  else f x.

(** [double k(double q, double normalizer)] *)
Definition k (q normalizer : R) : R :=
  limit (fun q => ln (q / (1 - q)) * normalizer) q 1e-15 (1 - 1e-15).

(** [double q(double k, double normalizer)] *)
Definition q (k normalizer : R) : R :=
  let w := exp (k / normalizer) in
  w / (1 + w).

(** [double max(double q, double normalizer)] *)
Definition max (q normalizer : R) : R :=
  q * (1 - q) / normalizer.

(** [double z(double compression, double n)] *)
Definition z (compression n : R) : R :=
  4 * ln (n / compression) + 24.

(** [double normalizer(double compression, double n)] *)
Definition normalizer (compression n : R) : R :=
  compression / z compression n.

(** The clamp of the specification ("clamped to q in [1e-15, 1 - 1e-15]"):
    the point of the interval nearest to [x].  Stated from the spec's
    words, to be compared with [limit]. *)
Definition clamp (x : R) : R := Rmax 1e-15 (Rmin x (1 - 1e-15)).
End scale_function.

(** *** Machine integers *)

Definition uint64_wrap (z : Z) : Z := (z mod 2 ^ 64)%Z.

(** [uint64_t] addition, as [weight_ += other.weight_] performs it. *)
Definition uint64_add (a b : Z) : Z := uint64_wrap (a + b).

Definition is_uint16 (z : Z) : Prop := (0 <= z < 2 ^ 16)%Z.
Definition is_uint64 (z : Z) : Prop := (0 <= z < 2 ^ 64)%Z.

(** *** The template parameter [T]

    [static_assert(std::is_floating_point<T>::value)]: the operations
    of a floating-point type that the digest uses.  [Tltb] is
    [operator<], [Teqb] is [operator==], [T_of_u64] the implicit
    conversion of a [uint64_t] operand, [T_to_double] and
    [T_of_double] the conversions from and to [double]. *)
Class FloatType (T : Type) : Type := {
  Tadd : T -> T -> T;
  Tsub : T -> T -> T;
  Tmul : T -> T -> T;
  Tdiv : T -> T -> T;
  Tltb : T -> T -> bool;
  Teqb : T -> T -> bool;
  Tisnan : T -> bool;
  T_of_u64 : Z -> T;
  T_to_double : T -> R;
  T_of_double : R -> T
}.

(** [double] comparisons as booleans. *)
Definition Rltb (x y : R) : bool := if Rlt_dec x y then true else false.
Definition Rleb (x y : R) : bool := if Rle_dec x y then true else false.
Definition Reqb (x y : R) : bool := if Req_dec_T x y then true else false.

(** Exact arithmetic: [T] read as the reals. *)
#[export] Instance R_FloatType : FloatType R := {|
  Tadd := Rplus;
  Tsub := Rminus;
  Tmul := Rmult;
  Tdiv := Rdiv;
  Tltb := Rltb;
  Teqb := Reqb;
  Tisnan := fun _ => false;
  T_of_u64 := IZR;
  T_to_double := fun x => x;
  T_of_double := fun x => x
|}.

(** What a function that may answer [std::numeric_limits<>::quiet_NaN()]
    returns. *)
Inductive fresult (A : Type) : Type :=
| quiet_NaN : fresult A
| number : A -> fresult A.
Arguments quiet_NaN {A}.
Arguments number {A} _.

(** Errors propagated to the caller (the exceptions of the code). *)
Inductive error : Type :=
| InvalidArgument
| FormatError
| IoError
| CapacityError.

Inductive result (A : Type) : Type :=
| Ok : A -> result A
| Err : error -> result A.
Arguments Ok {A} _.
Arguments Err {A} _.

(** *** [class tdigest<T>::centroid] *)

Record centroid (T : Type) : Type := Centroid {
  mean_ : T;
  weight_ : Z
}.
Arguments Centroid {T} _ _.
Arguments mean_ {T} _.
Arguments weight_ {T} _.

Section Centroid.
Context {T : Type} `{FloatType T}.

Definition get_mean (c : centroid T) : T := mean_ c.
Definition get_weight (c : centroid T) : Z := weight_ c.

(** [weight_ += other.weight_;] *)
Definition add_weight (c other : centroid T) : centroid T :=
  {| mean_ := mean_ c;
     weight_ := uint64_add (weight_ c) (weight_ other) |}.

(** The integer that the second statement of [add] converts to [T]
    and divides by: the [weight_] field as it is at that point. *)
Definition add_divisor (c : centroid T) : Z := weight_ c.

(** [mean_ += (other.mean_ - mean_) * other.weight_ / weight_;] *)
Definition add_mean (c other : centroid T) : centroid T :=
  {| mean_ :=
       Tadd (mean_ c)
            (Tdiv (Tmul (Tsub (mean_ other) (mean_ c))
                        (T_of_u64 (weight_ other)))
                  (T_of_u64 (add_divisor c)));
     weight_ := weight_ c |}.

(** [void add(const centroid& other)]: the two statements in order. *)
Definition add (c other : centroid T) : centroid T :=
  add_mean (add_weight c other) other.

(** [struct centroid_cmp]: [operator()(a, b)] is [a.mean < b.mean]. *)
Definition centroid_cmp (a b : centroid T) : bool :=
  if Tltb (get_mean a) (get_mean b) then true else false.

(** The specification's other form of the weighted mean,
    [(w1*m1 + w2*m2) / (w1 + w2)], for comparison with [add]. *)
Definition combined_mean_spec (c other : centroid T) : T :=
  Tdiv (Tadd (Tmul (T_of_u64 (weight_ c)) (mean_ c))
             (Tmul (T_of_u64 (weight_ other)) (mean_ other)))
       (T_of_u64 (uint64_add (weight_ c) (weight_ other))).
End Centroid.

(** The weights of a list of centroids added up in [Z], without
    wrap-around. *)
Fixpoint sum_weights {T : Type} (l : list (centroid T)) : Z :=
  match l with
  | [] => 0%Z
  | c :: l' => (weight_ c + sum_weights l')%Z
  end.

(** A centroid whose weight has the width of [uint64_t]. *)
Definition weight_fits {T : Type} (c : centroid T) : Prop :=
  is_uint64 (weight_ c).

(** *** [class tdigest<T>]: constants and state *)

Definition USE_ALTERNATING_SORT : bool := true.
Definition USE_TWO_LEVEL_COMPRESSION : bool := true.
Definition USE_WEIGHT_LIMIT : bool := true.

Definition PREAMBLE_LONGS_EMPTY : Z := 1.
Definition PREAMBLE_LONGS_NON_EMPTY : Z := 2.
Definition SERIAL_VERSION : Z := 1.
Definition SKETCH_TYPE : Z := 20.
Definition COMPAT_DOUBLE : Z := 1.
Definition COMPAT_FLOAT : Z := 2.

(** [enum flags { IS_EMPTY, REVERSE_MERGE };] and the value C++ gives
    each enumerator (its position in the declaration). *)
Inductive flags : Type := IS_EMPTY | REVERSE_MERGE.

Definition flags_value (f : flags) : Z :=
  match f with
  | IS_EMPTY => 0
  | REVERSE_MERGE => 1
  end.

(** The private data members; [allocator_] carries no state of the
    sketch and is left out.  [min_] and [max_] are [None] until a value
    has been seen. *)
Record tdigest (T : Type) : Type := Tdigest {
  reverse_merge_ : bool;
  k_ : Z;
  internal_k_ : Z;
  min_ : option T;
  max_ : option T;
  centroids_capacity_ : Z;
  centroids_ : list (centroid T);
  centroids_weight_ : Z;
  buffer_capacity_ : Z;
  buffer_ : list (centroid T);
  buffered_weight_ : Z
}.
Arguments Tdigest {T} _ _ _ _ _ _ _ _ _ _ _.
Arguments reverse_merge_ {T} _.
Arguments k_ {T} _.
Arguments internal_k_ {T} _.
Arguments min_ {T} _.
Arguments max_ {T} _.
Arguments centroids_capacity_ {T} _.
Arguments centroids_ {T} _.
Arguments centroids_weight_ {T} _.
Arguments buffer_capacity_ {T} _.
Arguments buffer_ {T} _.
Arguments buffered_weight_ {T} _.

(** Modelled from the spec: the sizes that sections 4.2 and 6 leave to
    the implementation and that [tdigest_impl.hpp] fixes: the least
    admissible [k], the map from [k] to [internal_k], and the ratio of
    the buffer capacity to the capacity of the compressed array. *)
Record tuning : Type := Tuning {
  K_MIN : Z;
  internal_k_of : Z -> Z;
  BUFFER_MULTIPLIER : Z
}.

(** Modelled from the spec: the values it quotes as examples for the
    sizes that [tdigest_impl.hpp] fixes: minimum 10, [internal_k]
    about [2k], multiplier 5. *)
Definition reference_tuning : tuning :=
  {| K_MIN := 10; internal_k_of := fun k => (2 * k)%Z; BUFFER_MULTIPLIER := 5 |}.

(** Ties keep their order: [std::stable_sort] with comparator [lt]. *)
Fixpoint insert_sorted {A : Type} (lt : A -> A -> bool) (x : A) (l : list A)
  : list A :=
  match l with
  | [] => [x]
  | y :: l' => if lt y x then y :: insert_sorted lt x l' else x :: y :: l'
  end.

Definition stable_sort {A : Type} (lt : A -> A -> bool) (l : list A) : list A :=
  fold_right (insert_sorted lt) [] l.

(** Modelled from the spec: [static double weighted_average(double x1,
    double w1, double x2, double w2)] (declared in the header, body in
    [tdigest_impl.hpp]), section 4.4:
    [(x1*w1 + x2*w2) / (w1 + w2)]. *)
Definition weighted_average (x1 w1 x2 w2 : R) : R :=
  ((x1 * w1 + x2 * w2) / (w1 + w2))%R.

Section Digest.
Context {T : Type} `{FloatType T}.
Variable tune : tuning.

(** [std::min(a, b)] and [std::max(a, b)]. *)
Definition Tmin (a b : T) : T := if Tltb b a then b else a.
Definition Tmax (a b : T) : T := if Tltb a b then b else a.

(** Modelled from the spec: [min <- min(min, x)] and [max <- max(max, x)]
    of section 4.3, step 9, on fields that hold nothing before the
    first value. *)
Definition min_seen (m : option T) (x : T) : option T :=
  match m with
  | None => Some x
  | Some a => Some (Tmin a x)
  end.

Definition max_seen (m : option T) (x : T) : option T :=
  match m with
  | None => Some x
  | Some a => Some (Tmax a x)
  end.

(** Modelled from the spec: the private constructor
    [tdigest(bool reverse_merge, uint16_t k, T min, T max,
             vector_centroid&& centroids, uint64_t total_weight_, ...)]
    (declared in the header, body in [tdigest_impl.hpp]); section 4.2
    derives the capacities from [internal_k]. *)
Definition make_tdigest (reverse_merge : bool) (k : Z) (min max : option T)
    (centroids : list (centroid T)) (total_weight : Z) : tdigest T :=
  let internal_k := internal_k_of tune k in
  let centroids_capacity := (2 * internal_k)%Z in
  {| reverse_merge_ := reverse_merge;
     k_ := k;
     internal_k_ := internal_k;
     min_ := min;
     max_ := max;
     centroids_capacity_ := centroids_capacity;
     centroids_ := centroids;
     centroids_weight_ := total_weight;
     buffer_capacity_ := (BUFFER_MULTIPLIER tune * centroids_capacity)%Z;
     buffer_ := [];
     buffered_weight_ := 0 |}.

(** Modelled from the spec: [explicit tdigest(uint16_t k = 100, ...)]
    (body in [tdigest_impl.hpp]).  Section 6: [k] "must be >= a small
    positive minimum"; section 7: [InvalidArgument] otherwise. *)
Definition tdigest_new (k : Z) : result (tdigest T) :=
  if (k <? K_MIN tune)%Z then Err InvalidArgument
  else Ok (make_tdigest false k None None [] 0).

(** Modelled from the spec: [bool is_empty() const] (body in
    [tdigest_impl.hpp]): "true if t-Digest has not seen any data", that
    is, both arrays are empty. *)
Definition is_empty (d : tdigest T) : bool :=
  match centroids_ d, buffer_ d with
  | [], [] => true
  | _, _ => false
  end.

(** Modelled from the spec: [T get_min_value() const] (body in
    [tdigest_impl.hpp]): the [min] of section 3. *)
Definition get_min_value (d : tdigest T) : option T := min_ d.

(** Modelled from the spec: [T get_max_value() const] (body in
    [tdigest_impl.hpp]): the [max] of section 3. *)
Definition get_max_value (d : tdigest T) : option T := max_ d.

(** Modelled from the spec: [uint16_t get_k() const] (body in
    [tdigest_impl.hpp]): the [k] of section 3. *)
Definition get_k (d : tdigest T) : Z := k_ d.

(** Modelled from the spec: [uint64_t get_total_weight() const] (body
    in [tdigest_impl.hpp]); section 3, invariant 3, with the addition
    of the field type. *)
Definition get_total_weight (d : tdigest T) : Z :=
  uint64_add (centroids_weight_ d) (buffered_weight_ d).

(** Modelled from the spec: section 4.3, step 6, the test that
    decides whether [c] is combined into [cur]; equal means are
    combined unconditionally ("Tie-breaking"). *)
Definition should_merge (N : R) (n : Z) (weight_so_far q_limit : R)
    (cur c : centroid T) : bool :=
  Teqb (mean_ cur) (mean_ c)
  || (if USE_WEIGHT_LIMIT then
        let q_proj :=
          ((weight_so_far + IZR (weight_ cur) + IZR (weight_ c)) / IZR n)%R in
        Rleb ((IZR (weight_ c) + IZR (weight_ cur)) / IZR n)
             (scale_function.max q_proj N)
      else
        Rleb ((weight_so_far + IZR (weight_ cur) + IZR (weight_ c)) / IZR n)
             q_limit).

(** Modelled from the spec: section 4.3, steps 6 and 7, the scan over
    the sorted buffer.  [cur] is combined with [centroid::add]. *)
Fixpoint merge_scan (N : R) (n : Z) (cur : centroid T)
    (weight_so_far q_limit : R) (rest : list (centroid T))
  : list (centroid T) :=
  match rest with
  | [] => [cur]
  | c :: rest' =>
    if should_merge N n weight_so_far q_limit cur c then
      merge_scan N n (add cur c) weight_so_far q_limit rest'
    else
      let weight_so_far' := (weight_so_far + IZR (weight_ cur))%R in
      let q_limit' :=
        if USE_WEIGHT_LIMIT then q_limit
        else scale_function.q
               (scale_function.k (weight_so_far' / IZR n) N + 1) N in
      cur :: merge_scan N n c weight_so_far' q_limit' rest'
  end.

(** Modelled from the spec: section 4.3, steps 4 to 7 for a given
    compression [delta] and total weight [n]. *)
Definition merge_pass (delta : Z) (n : Z) (sorted : list (centroid T))
  : list (centroid T) :=
  let N := scale_function.normalizer (IZR delta) (IZR n) in
  match sorted with
  | [] => []
  | c0 :: rest =>
    merge_scan N n c0 0
      (scale_function.q (scale_function.k 0 N + 1) N) rest
  end.

(** Modelled from the spec: [void merge_buffered()] (body in
    [tdigest_impl.hpp]), section 4.3, steps 1 to 9. *)
Definition merge_buffered (d : tdigest T) : tdigest T :=
  match buffer_ d with
  | [] => d
  | _ :: _ =>
    let all := buffer_ d ++ centroids_ d in
    let reverse := USE_ALTERNATING_SORT && reverse_merge_ d in
    let sorted :=
      stable_sort (if reverse then fun a b => centroid_cmp b a
                   else centroid_cmp) all in
    let n := uint64_add (centroids_weight_ d) (buffered_weight_ d) in
    let merged := merge_pass (internal_k_ d) n sorted in
    let final := if reverse then rev merged else merged in
    {| reverse_merge_ :=
         if USE_ALTERNATING_SORT then negb (reverse_merge_ d)
         else reverse_merge_ d;
       k_ := k_ d;
       internal_k_ := internal_k_ d;
       min_ := match final with
               | [] => min_ d
               | c :: _ => min_seen (min_ d) (mean_ c)
               end;
       max_ := match rev final with
               | [] => max_ d
               | c :: _ => max_seen (max_ d) (mean_ c)
               end;
       centroids_capacity_ := centroids_capacity_ d;
       centroids_ := final;
       centroids_weight_ := n;
       buffer_capacity_ := buffer_capacity_ d;
       buffer_ := [];
       buffered_weight_ := 0 |}
  end.

(** Modelled from the spec: the second pass of two-level compression
    (section 4.3, last paragraph): steps 4 to 7 over the compressed
    array with [k] in place of [internal_k]. *)
Definition second_pass (d : tdigest T) : tdigest T :=
  if USE_TWO_LEVEL_COMPRESSION then
    {| reverse_merge_ := reverse_merge_ d;
       k_ := k_ d;
       internal_k_ := internal_k_ d;
       min_ := min_ d;
       max_ := max_ d;
       centroids_capacity_ := centroids_capacity_ d;
       centroids_ := merge_pass (k_ d) (centroids_weight_ d) (centroids_ d);
       centroids_weight_ := centroids_weight_ d;
       buffer_capacity_ := buffer_capacity_ d;
       buffer_ := buffer_ d;
       buffered_weight_ := buffered_weight_ d |}
  else d.

(** Modelled from the spec: [void compress()] (body in
    [tdigest_impl.hpp]).  Section 4.3: it "forces merge_buffered() and,
    if two-level compression is enabled, runs a second pass"; section
    6: it is "idempotent when the buffer is empty", so with an empty
    buffer nothing is done. *)
Definition compress (d : tdigest T) : tdigest T :=
  match buffer_ d with
  | [] => d
  | _ :: _ => second_pass (merge_buffered d)
  end.

(** Modelled from the spec: section 4.2, [append_buffer(mean, weight)]:
    "triggers merge_buffered when buffer.len() == buffer_capacity". *)
Definition append_buffer (mean : T) (weight : Z) (d : tdigest T) : tdigest T :=
  let d1 :=
    {| reverse_merge_ := reverse_merge_ d;
       k_ := k_ d;
       internal_k_ := internal_k_ d;
       min_ := min_ d;
       max_ := max_ d;
       centroids_capacity_ := centroids_capacity_ d;
       centroids_ := centroids_ d;
       centroids_weight_ := centroids_weight_ d;
       buffer_capacity_ := buffer_capacity_ d;
       buffer_ := buffer_ d ++ [Centroid mean weight];
       buffered_weight_ := uint64_add (buffered_weight_ d) weight |} in
  if (Z.of_nat (length (buffer_ d1)) =? buffer_capacity_ d1)%Z
  then merge_buffered d1
  else d1.

(** Modelled from the spec: [void update(T value)] (body in
    [tdigest_impl.hpp]).  Section 6: a NaN is ignored, otherwise a
    singleton centroid of weight 1 is appended; section 3: [min] and
    [max] are the smallest and largest observations seen. *)
Definition update (value : T) (d : tdigest T) : tdigest T :=
  if Tisnan value then d
  else
    append_buffer value 1
      {| reverse_merge_ := reverse_merge_ d;
         k_ := k_ d;
         internal_k_ := internal_k_ d;
         min_ := min_seen (min_ d) value;
         max_ := max_seen (max_ d) value;
         centroids_capacity_ := centroids_capacity_ d;
         centroids_ := centroids_ d;
         centroids_weight_ := centroids_weight_ d;
         buffer_capacity_ := buffer_capacity_ d;
         buffer_ := buffer_ d;
         buffered_weight_ := buffered_weight_ d |}.

(** Modelled from the spec: [void merge(tdigest& other)] (body in
    [tdigest_impl.hpp]).  Section 4.2: "appends all of other's
    centroids (compressed and buffered) into buffer, then forces
    merge_buffered"; [other] is left as it is. *)
Definition merge (other d : tdigest T) : tdigest T :=
  merge_buffered
    {| reverse_merge_ := reverse_merge_ d;
       k_ := k_ d;
       internal_k_ := internal_k_ d;
       min_ := min_ d;
       max_ := max_ d;
       centroids_capacity_ := centroids_capacity_ d;
       centroids_ := centroids_ d;
       centroids_weight_ := centroids_weight_ d;
       buffer_capacity_ := buffer_capacity_ d;
       buffer_ := buffer_ d ++ centroids_ other ++ buffer_ other;
       buffered_weight_ :=
         uint64_add (buffered_weight_ d) (get_total_weight other) |}.

(** The digests that [update], [merge] and [compress] build from
    freshly constructed ones, with the weight they have taken in,
    counted in [Z] without wrap-around. *)
Inductive built : tdigest T -> Z -> Prop :=
| built_new k d :
    is_uint16 k -> tdigest_new k = Ok d -> built d 0
| built_update d n value :
    built d n -> Tisnan value = false -> built (update value d) (n + 1)
| built_merge d n other m :
    built d n -> built other m -> built (merge other d) (n + m)
| built_compress d n :
    built d n -> built (compress d) n.
End Digest.

(** *** Queries *)

Section Queries.
Context {T : Type} `{FloatType T}.

(** Modelled from the spec: section 4.4, the interpolation of
    [get_rank] between adjacent centroids.  [pm] and [pr] are the mean
    and the midpoint rank (as a weight) of the centroid to the left,
    [cum] the weight before [cs]; to the right of the last centroid
    the knot is [max] at weight [n].  The spec gives no rule between
    [min] and the first mean or between the last mean and [max]; the
    model interpolates there as well. *)
Fixpoint rank_scan (v n pm pr cum mx : R) (cs : list (centroid T)) : R :=
  match cs with
  | [] => (weighted_average pr (mx - v) n (v - pm) / n)%R
  | c :: cs' =>
    let m := T_to_double (mean_ c) in
    let mid := (cum + IZR (weight_ c) / 2)%R in
    if Rleb v m then (weighted_average pr (m - v) mid (v - pm) / n)%R
    else rank_scan v n m mid (cum + IZR (weight_ c))%R mx cs'
  end.

(** Modelled from the spec: section 4.4, the cases of [get_rank] on a
    compressed digest. *)
Definition rank_of (value : T) (d : tdigest T) : fresult R :=
  if is_empty d then quiet_NaN
  else
    match min_ d, max_ d, centroids_ d with
    | Some mn, Some mx, c0 :: cs =>
      let n := IZR (centroids_weight_ d) in
      if Tltb value mn then number 0%R
      else if Tltb mx value then number 1%R
      else if Teqb value mn && negb (Tltb (mean_ c0) value)
      then number (0.5 / n)%R
      else if Teqb value mx then number (1 - 0.5 / n)%R
      else if (match cs with [] => Teqb value (mean_ c0) | _ => false end)
      then number 0.5%R
      else number (rank_scan (T_to_double value) n (T_to_double mn) 0 0
                     (T_to_double mx) (c0 :: cs))
    | _, _, _ => quiet_NaN
    end.

(** Modelled from the spec: [double get_rank(T value) const] (body in
    [tdigest_impl.hpp]), section 4.4: "Both queries first call
    compress()".  The answer, and the digest as the call leaves it. *)
Definition get_rank (value : T) (d : tdigest T) : fresult R * tdigest T :=
  let d1 := compress d in
  (rank_of value d1, d1).

(** Modelled from the spec: section 4.4, the scan of [get_quantile]:
    the first centroid whose midpoint reaches the weight target [t],
    interpolated with [weighted_average] from the knot to its left;
    a singleton at either end snaps to [min] or [max]. *)
Fixpoint quantile_scan (t n pm pr cum mn mx : R) (first : bool)
    (cs : list (centroid T)) : R :=
  match cs with
  | [] => weighted_average pm (n - t) mx (t - pr)
  | c :: cs' =>
    let m := T_to_double (mean_ c) in
    let w := IZR (weight_ c) in
    let mid := (cum + w / 2)%R in
    if Rleb t mid then
      if first && Reqb w 1 then mn
      else weighted_average pm (mid - t) m (t - pr)
    else
      match cs' with
      | [] => if Reqb w 1 then mx
              else weighted_average m (n - t) mx (t - mid)
      | _ :: _ => quantile_scan t n m mid (cum + w)%R mn mx false cs'
      end
  end.

(** Modelled from the spec: section 4.4, the cases of [get_quantile]
    on a compressed digest; section 6: a rank outside [[0,1]] is an
    error. *)
Definition quantile_of (rank : R) (d : tdigest T) : result (fresult T) :=
  if is_empty d then Ok quiet_NaN
  else if Rltb rank 0 || Rltb 1 rank then Err InvalidArgument
  else
    match min_ d, max_ d with
    | Some mn, Some mx =>
      if Reqb rank 0 then Ok (number mn)
      else if Reqb rank 1 then Ok (number mx)
      else
        let n := IZR (centroids_weight_ d) in
        Ok (number
              (T_of_double
                 (quantile_scan (rank * n) n (T_to_double mn) 0 0
                    (T_to_double mn) (T_to_double mx) true (centroids_ d))))
    | _, _ => Ok quiet_NaN
    end.

(** Modelled from the spec: [T get_quantile(double rank) const] (body
    in [tdigest_impl.hpp]), section 4.4: the query compresses first.
    The answer, and the digest as the call leaves it. *)
Definition get_quantile (rank : R) (d : tdigest T)
  : result (fresult T) * tdigest T :=
  let d1 := compress d in
  (quantile_of rank d1, d1).
End Queries.

(** *** Serialization *)

(** The bytes of a [T] in memory: [sizeof(T)] of them, copied out and
    back unchanged. *)
Class FloatCodec (T : Type) : Type := {
  sizeof_T : nat;
  T_to_bytes : T -> list byte;
  T_of_bytes : list byte -> T;
  T_to_bytes_length : forall x, length (T_to_bytes x) = sizeof_T;
  T_of_to_bytes : forall x, T_of_bytes (T_to_bytes x) = x
}.

(** Reading from a byte array: the bytes left, or an error. *)
Definition reader (A : Type) : Type := list byte -> result (A * list byte).

Definition ret {A : Type} (a : A) : reader A := fun bs => Ok (a, bs).

Definition bind {A B : Type} (m : reader A) (f : A -> reader B) : reader B :=
  fun bs =>
    match m bs with
    | Ok (a, bs') => f a bs'
    | Err e => Err e
    end.

Definition fail {A : Type} (e : error) : reader A := fun _ => Err e.

Notation "x <- m ;; f" := (bind m (fun x => f))
  (at level 61, m at next level, right associativity).

Definition read_bytes (n : nat) : reader (list byte) :=
  fun bs =>
    if (length bs <? n)%nat then Err FormatError
    else Ok (firstn n bs, skipn n bs).

(** An unsigned little-endian integer of [n] bytes. *)
Definition read_uint (n : nat) : reader Z :=
  bs <- read_bytes n ;; ret (le_combine bs).

Definition write_uint (n : nat) (z : Z) : list byte := le_split n z.

Fixpoint read_many {A : Type} (r : reader A) (n : nat) : reader (list A) :=
  match n with
  | O => ret []
  | S n' => a <- r ;; l <- read_many r n' ;; ret (a :: l)
  end.

Section Codec.
Context {T : Type} `{FloatType T} `{FloatCodec T}.
Variable tune : tuning.

(** The layout that the reference implementation writes; the spec
    names its two type bytes and nothing else of it, so the reader of
    that layout is a parameter. *)
Variable deserialize_compat : list byte -> result (tdigest T).

Definition read_T : reader T :=
  bs <- read_bytes sizeof_T ;; ret (T_of_bytes bs).

(** Modelled from the spec: section 4.5, offset 3, the flags byte:
    "bit 0 = is_empty, bit 1 = reverse_merge", with the positions the
    [enum flags] declares. *)
Definition flags_byte (d : tdigest T) : Z :=
  Z.lor (if is_empty d then Z.shiftl 1 (flags_value IS_EMPTY) else 0)
        (if reverse_merge_ d then Z.shiftl 1 (flags_value REVERSE_MERGE)
         else 0).

(** Modelled from the spec: the value written for [min] and [max]
    (section 4.5, offsets 24 and 24+w); a digest that holds a centroid
    has seen a value, so the default is not reached. *)
Definition seen (m : option T) : T :=
  match m with
  | Some x => x
  | None => T_of_u64 0
  end.

(** Modelled from the spec: section 4.5, the native format, for a
    digest whose buffer has been drained. *)
Definition serialize_body (d : tdigest T) : list byte :=
  write_uint 1 (if is_empty d then PREAMBLE_LONGS_EMPTY
                else PREAMBLE_LONGS_NON_EMPTY)
  ++ write_uint 1 SERIAL_VERSION
  ++ write_uint 1 SKETCH_TYPE
  ++ write_uint 1 (flags_byte d)
  ++ write_uint 2 (k_ d)
  ++ write_uint 2 0
  ++ (if is_empty d then []
      else
        write_uint 4 (Z.of_nat (length (centroids_ d)))
        ++ write_uint 4 (Z.of_nat (length (buffer_ d)))
        ++ write_uint 8 (get_total_weight d)
        ++ T_to_bytes (seen (min_ d))
        ++ T_to_bytes (seen (max_ d))
        ++ flat_map (fun c => T_to_bytes (mean_ c)) (centroids_ d)
        ++ flat_map (fun c => write_uint 8 (weight_ c)) (centroids_ d)).

(** Modelled from the spec: [vector_bytes serialize(unsigned
    header_size_bytes = 0) const] (body in [tdigest_impl.hpp]):
    "Write compress() first so buffer is empty"; the header space in
    front is not initialised by the code, zero bytes stand for it.
    The bytes, and the digest as the call leaves it. *)
Definition serialize (header_size_bytes : nat) (d : tdigest T)
  : list byte * tdigest T :=
  let d1 := compress d in
  (repeat Byte.x00 header_size_bytes ++ serialize_body d1, d1).

(** Modelled from the spec: [static tdigest deserialize(const void*
    bytes, size_t size, ...)] (body in [tdigest_impl.hpp]), sections
    4.5, 6 and 7: the layout is chosen by the sketch-type byte; the
    version, the preamble size against the empty flag, the lengths
    and the declared total weight are validated. *)
Definition deserialize (bytes : list byte) : result (tdigest T) :=
  let parse : reader (tdigest T) :=
    preamble_longs <- read_uint 1 ;;
    serial_version <- read_uint 1 ;;
    sketch_type <- read_uint 1 ;;
    if negb (sketch_type =? SKETCH_TYPE)%Z then
      if ((sketch_type =? COMPAT_DOUBLE) || (sketch_type =? COMPAT_FLOAT))%Z
      then fun _ => match deserialize_compat bytes with
                    | Ok d => Ok (d, [])
                    | Err e => Err e
                    end
      else fail FormatError
    else if negb (serial_version =? SERIAL_VERSION)%Z then fail FormatError
    else
      flags_byte <- read_uint 1 ;;
      k <- read_uint 2 ;;
      unused <- read_uint 2 ;;
      let empty := Z.testbit flags_byte (flags_value IS_EMPTY) in
      let reverse_merge := Z.testbit flags_byte (flags_value REVERSE_MERGE) in
      if negb (preamble_longs =? (if empty then PREAMBLE_LONGS_EMPTY
                                  else PREAMBLE_LONGS_NON_EMPTY))%Z
      then fail FormatError
      else if empty then
        ret (make_tdigest tune reverse_merge k None None [] 0)
      else
        num_centroids <- read_uint 4 ;;
        num_buffered <- read_uint 4 ;;
        total_weight <- read_uint 8 ;;
        min <- read_T ;;
        max <- read_T ;;
        means <- read_many read_T (Z.to_nat num_centroids) ;;
        weights <- read_many (read_uint 8) (Z.to_nat num_centroids) ;;
        let centroids := map (fun mw => Centroid (fst mw) (snd mw))
                             (combine means weights) in
        if negb (uint64_wrap (sum_weights centroids) =? total_weight)%Z
        then fail FormatError
        else ret (make_tdigest tune reverse_merge k (Some min) (Some max)
                    centroids total_weight)
  in
  match parse bytes with
  | Ok (d, _) => Ok d
  | Err e => Err e
  end.

(** What the codec needs of a digest: the integer fields have the
    width of their C++ types, the array lengths fit the 32-bit
    counts, the two weight fields are the [uint64_t] sums of the
    arrays (section 3, invariant 2), an empty digest has seen
    nothing and a digest that holds compressed centroids has a
    minimum and a maximum. *)
Definition serializable (d : tdigest T) : Prop :=
  is_uint16 (k_ d)
  /\ Forall weight_fits (centroids_ d)
  /\ Forall weight_fits (buffer_ d)
  /\ (Z.of_nat (length (centroids_ d) + length (buffer_ d)) < 2 ^ 32)%Z
  /\ centroids_weight_ d = uint64_wrap (sum_weights (centroids_ d))
  /\ buffered_weight_ d = uint64_wrap (sum_weights (buffer_ d))
  /\ (is_empty d = true -> min_ d = None /\ max_ d = None)
  /\ (centroids_ d <> [] -> min_ d <> None /\ max_ d <> None).
End Codec.

(** *** A number type to run the codec on

    Eight bytes holding an unsigned 64-bit integer, least significant
    byte first, with wrap-around arithmetic: enough of a [T] to carry
    concrete digests through [serialize] and [deserialize]. *)
Definition word64 : Type :=
  (byte * byte * byte * byte * byte * byte * byte * byte)%type.

Definition word64_to_bytes (x : word64) : list byte :=
  let '(b0, b1, b2, b3, b4, b5, b6, b7) := x in
  [b0; b1; b2; b3; b4; b5; b6; b7].

Definition word64_of_bytes (l : list byte) : word64 :=
  match l with
  | [b0; b1; b2; b3; b4; b5; b6; b7] => (b0, b1, b2, b3, b4, b5, b6, b7)
  | _ => (Byte.x00, Byte.x00, Byte.x00, Byte.x00,
          Byte.x00, Byte.x00, Byte.x00, Byte.x00)
  end.

Definition word64_to_Z (x : word64) : Z := le_combine (word64_to_bytes x).
Definition word64_of_Z (z : Z) : word64 := word64_of_bytes (le_split 8 z).

#[export] Instance word64_FloatType : FloatType word64 := {|
  Tadd := fun x y => word64_of_Z (word64_to_Z x + word64_to_Z y);
  Tsub := fun x y => word64_of_Z (word64_to_Z x - word64_to_Z y);
  Tmul := fun x y => word64_of_Z (word64_to_Z x * word64_to_Z y);
  Tdiv := fun x y => word64_of_Z (Z.quot (word64_to_Z x) (word64_to_Z y));
  Tltb := fun x y => (word64_to_Z x <? word64_to_Z y)%Z;
  Teqb := fun x y => (word64_to_Z x =? word64_to_Z y)%Z;
  Tisnan := fun _ => false;
  T_of_u64 := word64_of_Z;
  T_to_double := fun x => IZR (word64_to_Z x);
  T_of_double := fun r => word64_of_Z (Int_part r)
|}.

#[export] Instance word64_FloatCodec : FloatCodec word64.
Proof.
  refine {| sizeof_T := 8;
            T_to_bytes := word64_to_bytes;
            T_of_bytes := word64_of_bytes;
            T_to_bytes_length := _;
            T_of_to_bytes := _ |};
    intros [[[[[[[b0 b1] b2] b3] b4] b5] b6] b7]; reflexivity.
Defined.

(** *** The IEEE 754 double

    [T = double] with the arithmetic of the machine: round to nearest
    even, overflow to the infinities, NaN from [inf - inf].  The
    conversion of a [uint64_t] operand rounds to nearest even as well;
    a value of 2^63 or more is halved first, its lowest bit kept as a
    sticky bit, since the primitive conversion takes 63 bits. *)
Definition binary64_of_u64 (z : Z) : float :=
  if (z <? 2 ^ 63)%Z then PrimFloat.of_uint63 (Uint63.of_Z z)
  else PrimFloat.mul
         (PrimFloat.of_uint63 (Uint63.of_Z (Z.lor (Z.shiftr z 1) (Z.land z 1))))
         2.

(** The real number a finite double denotes (0 for the infinities and
    NaN, which denote none). *)
Definition binary64_to_R (x : float) : R :=
  match Prim2SF x with
  | S754_finite s m e =>
    ((if s then -1 else 1) * IZR (Z.pos m) * powerRZ 2 e)%R
  | _ => 0%R
  end.

(** The integer nearest to [x >= 0], ties to the even one. *)
Definition round_half_even (x : R) : Z :=
  let f := Int_part x in
  let d := (x - IZR f)%R in
  if Rltb d (1 / 2) then f
  else if Rltb (1 / 2) d then (f + 1)%Z
  else if Z.even f then f else (f + 1)%Z.

(** The double nearest to a real: 53 bits of mantissa at the exponent
    of [r], not below the least normal exponent; [ldexp] overflows to
    an infinity. *)
Definition binary64_of_R (r : R) : float :=
  if Reqb r 0 then 0%float
  else
    let a := Rabs r in
    let e := Z.max (Int_part (ln a / ln 2)) (-1022) in
    let m := round_half_even (a * powerRZ 2 (52 - e)) in
    let x := Z.ldexp (PrimFloat.of_uint63 (Uint63.of_Z m)) (e - 52) in
    if Rltb r 0 then PrimFloat.opp x else x.

#[export] Instance binary64_FloatType : FloatType float := {|
  Tadd := PrimFloat.add;
  Tsub := PrimFloat.sub;
  Tmul := PrimFloat.mul;
  Tdiv := PrimFloat.div;
  Tltb := PrimFloat.ltb;
  Teqb := PrimFloat.eqb;
  Tisnan := PrimFloat.is_nan;
  T_of_u64 := binary64_of_u64;
  T_to_double := binary64_to_R;
  T_of_double := binary64_of_R
|}.

(** *** Vocabulary of the statements *)

(** Order of two centroids by mean: ascending, or descending when
    [reverse] is set. *)
Definition mean_ordered (reverse : bool) (a b : centroid R) : Prop :=
  if reverse then (mean_ b <= mean_ a)%R else (mean_ a <= mean_ b)%R.

(** The number of centroids a digest holds in its two arrays. *)
Definition stored {T : Type} (d : tdigest T) : nat :=
  (length (centroids_ d) + length (buffer_ d))%nat.

(** A centroid that summarises at least one observation. *)
Definition positive_weight {T : Type} (c : centroid T) : Prop :=
  (1 <= weight_ c)%Z.

(** What [update], [merge] and [compress] maintain on a digest over
    the reals that has taken in weight [n]: the compressed array is
    ascending by mean, every centroid has a positive weight and the
    weights add up to [n]. *)
Definition digest_ok (d : tdigest R) (n : Z) : Prop :=
  Sorted (mean_ordered false) (centroids_ d)
  /\ Forall positive_weight (centroids_ d)
  /\ Forall positive_weight (buffer_ d)
  /\ (sum_weights (centroids_ d) + sum_weights (buffer_ d))%Z = n.

(** Section 3, invariant 4, for both arrays: every mean lies between
    [min] and [max]. *)
Definition within_extremes (d : tdigest R) : Prop :=
  forall c, In c (centroids_ d ++ buffer_ d) ->
    exists mn mx,
      min_ d = Some mn /\ max_ d = Some mx /\ (mn <= mean_ c <= mx)%R.

(** Section 3, invariant 4, as the comparison of [T] states it: no
    mean of [l] is below the [min] of [d] or above its [max]. *)
Definition within_min_max {T : Type} `{FloatType T} (d : tdigest T)
    (l : list (centroid T)) : Prop :=
  forall c, In c l ->
    exists mn mx,
      min_ d = Some mn /\ max_ d = Some mx
      /\ Tltb (mean_ c) mn = false /\ Tltb mx (mean_ c) = false.

(** A digest that holds one centroid and nothing in its buffer. *)
Definition one_centroid {T : Type} (d : tdigest T) (m : T) (w : Z) : Prop :=
  centroids_ d = [Centroid m w] /\ buffer_ d = []
  /\ centroids_weight_ d = w /\ buffered_weight_ d = 0%Z.

(** Digests over the reals with the largest [k] of a [uint16_t]: a
    fresh one, one that has taken a single value and been compressed,
    and that one merged into itself 63 times, its weight doubling each
    time to 2^63. *)
Definition widest_digest : tdigest R :=
  make_tdigest reference_tuning false 65535 None None [] 0.

Definition single_value (v : R) : tdigest R :=
  compress (update v widest_digest).

Definition doubled_value (v : R) : tdigest R :=
  Nat.iter 63 (fun x => merge x x) (single_value v).

(** *** Vocabulary of the further properties *)

(** [centroid::add] applied to [cur] with each centroid of a list in
    turn, as a scan combines a run of centroids. *)
Definition add_all {T : Type} `{FloatType T} (cur : centroid T)
    (l : list (centroid T)) : centroid T :=
  fold_left add l cur.

(** The first moment of a centroid, weight times mean, and its sum
    over a list. *)
Definition moment (c : centroid R) : R := (IZR (weight_ c) * mean_ c)%R.

Fixpoint sum_moments (l : list (centroid R)) : R :=
  match l with
  | [] => 0%R
  | c :: l' => (moment c + sum_moments l')%R
  end.

(** The centroids of a given mean. *)
Definition has_mean (m : R) (c : centroid R) : bool := Reqb (mean_ c) m.

(* ================================================================= *)
(** ** Theorems *)
(* ================================================================= *)

Section ScaleFunctionFacts.
Import scale_function.
Local Open Scope R_scope.

Lemma clamp_low x : x < 1e-15 -> clamp x = 1e-15.
Proof.
  intros Hx. unfold clamp.
  rewrite Rmin_left by lra. apply Rmax_left; lra.
Qed.

Lemma clamp_high x : 1 - 1e-15 < x -> clamp x = 1 - 1e-15.
Proof.
  intros Hx. unfold clamp.
  rewrite Rmin_right by lra. apply Rmax_right; lra.
Qed.

Lemma clamp_inside x : 1e-15 <= x <= 1 - 1e-15 -> clamp x = x.
Proof.
  intros [Hl Hh]. unfold clamp.
  rewrite Rmin_left by lra. apply Rmax_right; lra.
Qed.

Lemma clamp_range x : 1e-15 <= clamp x <= 1 - 1e-15.
Proof.
  destruct (Rlt_dec x 1e-15) as [Hl|Hl].
  - rewrite clamp_low by assumption. lra.
  - destruct (Rlt_dec (1 - 1e-15) x) as [Hh|Hh].
    + rewrite clamp_high by assumption. lra.
    + rewrite clamp_inside; lra.
Qed.

Lemma clamp_mono x y : x <= y -> clamp x <= clamp y.
Proof.
  intros Hxy. unfold clamp.
  apply Rle_max_compat_l. apply Rle_min_compat_r. exact Hxy.
Qed.

(** [limit] evaluates [f] at the clamped argument. *)
Lemma limit_clamp f x : limit f x 1e-15 (1 - 1e-15) = f (clamp x).
Proof.
  unfold limit.
  destruct (Rlt_dec x 1e-15) as [Hl|Hl].
  - now rewrite clamp_low.
  - destruct (Rgt_dec x (1 - 1e-15)) as [Hh|Hh].
    + now rewrite clamp_high.
    + rewrite clamp_inside; [reflexivity | unfold Rgt in Hh; lra].
Qed.

Lemma k_clamp x N : k x N = ln (clamp x / (1 - clamp x)) * N.
Proof. unfold k. now rewrite limit_clamp. Qed.

(** The odds [c / (1 - c)] of a clamped rank are positive. *)
Lemma odds_pos c : 1e-15 <= c <= 1 - 1e-15 -> 0 < c / (1 - c).
Proof. intros [Hl Hh]. apply Rdiv_lt_0_compat; lra. Qed.

Lemma odds_mono c d :
  1e-15 <= c -> c <= d -> d <= 1 - 1e-15 -> c / (1 - c) <= d / (1 - d).
Proof.
  intros Hc Hcd Hd.
  assert (H1 : 0 < 1 - c) by lra.
  assert (H2 : 0 < 1 - d) by lra.
  apply Rmult_le_reg_r with (r := (1 - c) * (1 - d)); [nra|].
  replace (c / (1 - c) * ((1 - c) * (1 - d))) with (c * (1 - d))
    by (field; lra).
  replace (d / (1 - d) * ((1 - c) * (1 - d))) with (d * (1 - c))
    by (field; lra).
  nra.
Qed.

Lemma ln_mono x y : 0 < x -> x <= y -> ln x <= ln y.
Proof.
  intros Hx [Hlt|Heq].
  - left. now apply ln_increasing.
  - subst. right. reflexivity.
Qed.

Lemma exp_mono x y : x <= y -> exp x <= exp y.
Proof.
  intros [Hlt|Heq].
  - left. now apply exp_increasing.
  - subst. right. reflexivity.
Qed.

(** [q] undoes the logarithm: [q (ln o * N) N = o / (1 + o)]. *)
Lemma q_of_ln o N : 0 < o -> N <> 0 -> q (ln o * N) N = o / (1 + o).
Proof.
  intros Ho HN. unfold q.
  replace (ln o * N / N) with (ln o) by (field; exact HN).
  now rewrite exp_ln.
Qed.

Lemma odds_inv c : 1e-15 <= c <= 1 - 1e-15 ->
  (c / (1 - c)) / (1 + c / (1 - c)) = c.
Proof. intros [Hl Hh]. field. lra. Qed.

Lemma q_k_clamp x N : N <> 0 -> q (k x N) N = clamp x.
Proof.
  intros HN. rewrite k_clamp.
  pose proof (clamp_range x) as Hr.
  rewrite q_of_ln by (auto using odds_pos).
  now apply odds_inv.
Qed.

(** C3: [k(q, N) = log(q / (1 - q)) * N] with [q] clamped to
    [[1e-15, 1 - 1e-15]]: for every [q] (in particular every [q] of
    [[0,1]]) and every normalizer, [k] is the logarithm formula at the
    nearest point of the interval, so below the interval it is [k] of
    the lower endpoint, above it [k] of the upper endpoint, and inside
    it the formula at [q] itself. *)
Theorem k_is_clamped_log_odds (x N : R) :
  k x N = ln (clamp x / (1 - clamp x)) * N
  /\ (x < 1e-15 -> k x N = k 1e-15 N)
  /\ (1 - 1e-15 < x -> k x N = k (1 - 1e-15) N)
  /\ (1e-15 <= x <= 1 - 1e-15 -> k x N = ln (x / (1 - x)) * N).
Proof.
  repeat split.
  - apply k_clamp.
  - intros Hx. rewrite !k_clamp, clamp_low by assumption.
    rewrite clamp_inside by lra. reflexivity.
  - intros Hx. rewrite !k_clamp, clamp_high by assumption.
    rewrite clamp_inside by lra. reflexivity.
  - intros Hx. rewrite k_clamp, clamp_inside by assumption. reflexivity.
Qed.

(** C4: for compression [delta > 0] and total weight [n > 0] the
    normalizer is [delta / (4 * log(n / delta) + 24)], and the
    logarithm is taken of a positive number. *)
Theorem normalizer_formula (delta n : R) :
  0 < delta -> 0 < n ->
  normalizer delta n = delta / (4 * ln (n / delta) + 24)
  /\ 0 < n / delta.
Proof.
  intros Hd Hn. split.
  - reflexivity.
  - now apply Rdiv_lt_0_compat.
Qed.

Lemma normalizer_formula_witness :
  normalizer 100 1000 = 100 / (4 * ln (1000 / 100) + 24)
  /\ 0 < 1000 / 100.
Proof. apply (normalizer_formula 100 1000); lra. Defined.



(** C9: for a normalizer [N > 0] the two maps are mutual inverses on
    the clamped interval, [q(k(q0, N), N) = q0], and outside it the
    round trip returns the nearest endpoint. *)
Theorem q_k_round_trip (N q0 : R) :
  0 < N ->
  (1e-15 <= q0 <= 1 - 1e-15 -> q (k q0 N) N = q0)
  /\ (q0 < 1e-15 -> q (k q0 N) N = 1e-15)
  /\ (1 - 1e-15 < q0 -> q (k q0 N) N = 1 - 1e-15).
Proof.
  intros HN.
  assert (HN0 : N <> 0) by lra.
  repeat split; intros Hq; rewrite q_k_clamp by assumption.
  - now apply clamp_inside.
  - now apply clamp_low.
  - now apply clamp_high.
Qed.

Lemma q_k_round_trip_witness :
  q (k 0.5 3) 3 = 0.5
  /\ q (k 0 3) 3 = 1e-15
  /\ q (k 1 3) 3 = 1 - 1e-15.
Proof.
  refine (conj _ (conj _ _)).
  - apply (q_k_round_trip 3 0.5); lra.
  - apply (q_k_round_trip 3 0); lra.
  - apply (q_k_round_trip 3 1); lra.
Defined.

End ScaleFunctionFacts.

Section CentroidFacts.
Local Open Scope Z_scope.

Lemma uint64_wrap_small z : is_uint64 z -> uint64_wrap z = z.
Proof. intros Hz. unfold uint64_wrap. apply Z.mod_small. exact Hz. Qed.

Lemma uint64_wrap_range z : is_uint64 (uint64_wrap z).
Proof. unfold is_uint64, uint64_wrap. apply Z.mod_pos_bound. lia. Qed.

Lemma uint64_add_exact a b :
  0 <= a -> 0 <= b -> a + b < 2 ^ 64 -> uint64_add a b = a + b.
Proof.
  intros Ha Hb Hs. unfold uint64_add.
  apply uint64_wrap_small. unfold is_uint64. lia.
Qed.

Lemma uint64_add_0_r a : is_uint64 a -> uint64_add a 0 = a.
Proof.
  intros Ha. unfold uint64_add. rewrite Z.add_0_r.
  now apply uint64_wrap_small.
Qed.

(** C2: combining [c] into [cur] gives the weight
    [cur.weight + c.weight] (the [uint64_t] sum, which is the
    mathematical sum whenever that fits 64 bits) and the mean
    [cur.mean + (c.mean - cur.mean) * c.weight / (cur.weight + c.weight)]:
    the incremental form, operation by operation, over any
    floating-point type [T], with a divisor that is not zero. *)
Theorem add_incremental_mean {T : Type} `{FloatType T} (cur c : centroid T) :
  is_uint64 (weight_ cur) -> is_uint64 (weight_ c) ->
  0 < uint64_add (weight_ cur) (weight_ c) ->
  weight_ (add cur c) = uint64_add (weight_ cur) (weight_ c)
  /\ mean_ (add cur c) =
       Tadd (mean_ cur)
            (Tdiv (Tmul (Tsub (mean_ c) (mean_ cur)) (T_of_u64 (weight_ c)))
                  (T_of_u64 (uint64_add (weight_ cur) (weight_ c))))
  /\ uint64_add (weight_ cur) (weight_ c) <> 0
  /\ (weight_ cur + weight_ c < 2 ^ 64 ->
      weight_ (add cur c) = weight_ cur + weight_ c).
Proof.
  intros Hcur Hc Hpos. repeat split.
  - lia.
  - intros Hfit. cbn. apply uint64_add_exact; unfold is_uint64 in *; lia.
Qed.

Lemma add_incremental_mean_witness :
  let cur := Centroid 1%R 2 in
  let c := Centroid 4%R 1 in
  weight_ (add cur c) = 3
  /\ mean_ (add cur c) = (1 + (4 - 1) * 1 / 3)%R.
Proof.
  intros cur c.
  destruct (add_incremental_mean cur c) as (Hw & Hm & _).
  - unfold is_uint64. cbn. lia.
  - unfold is_uint64. cbn. lia.
  - reflexivity.
  - split; [exact Hw | exact Hm].
Defined.

(** In exact arithmetic the incremental form and the form
    [(w1*m1 + w2*m2) / (w1 + w2)] agree whenever the divisor is not
    zero and the sum did not wrap. *)
Lemma add_mean_combined_form (cur c : centroid R) :
  0 <= weight_ cur -> 0 <= weight_ c ->
  0 < weight_ cur + weight_ c < 2 ^ 64 ->
  mean_ (add cur c) = combined_mean_spec cur c.
Proof.
  intros Hcur Hc [Hpos Hfit].
  unfold combined_mean_spec. cbn.
  rewrite uint64_add_exact by lia.
  rewrite plus_IZR.
  assert (Hd : (IZR (weight_ cur) + IZR (weight_ c))%R <> 0%R).
  { rewrite <- plus_IZR. apply not_0_IZR. lia. }
  field. exact Hd.
Qed.

(** C10: [add] first updates [weight_] and then divides by it, so
    the divisor is the combined weight, which is not zero when
    [a.weight + b.weight > 0]; adding a zero-weight [b] to [a] with
    [a.weight > 0] leaves [a] as it was (exact arithmetic). *)
Theorem add_divides_by_combined_weight (a b : centroid R) :
  is_uint64 (weight_ a) -> is_uint64 (weight_ b) ->
  0 < uint64_add (weight_ a) (weight_ b) ->
  add a b = add_mean (add_weight a b) b
  /\ add_divisor (add_weight a b) = uint64_add (weight_ a) (weight_ b)
  /\ IZR (add_divisor (add_weight a b)) <> 0%R
  /\ mean_ (add a b) =
       (mean_ a + (mean_ b - mean_ a) * IZR (weight_ b)
                  / IZR (uint64_add (weight_ a) (weight_ b)))%R
  /\ (weight_ b = 0 -> 0 < weight_ a -> add a b = a).
Proof.
  intros Ha Hb Hpos. repeat split.
  - cbn. apply not_0_IZR. lia.
  - intros Hb0 Ha0. destruct a as [ma wa], b as [mb wb]. cbn in *. subst wb.
    unfold add, add_mean, add_weight, add_divisor. cbn.
    rewrite uint64_add_0_r by exact Ha.
    f_equal. field. apply not_0_IZR. lia.
Qed.

Lemma add_divides_by_combined_weight_witness :
  let a := Centroid 5%R 7 in
  let b := Centroid 9%R 0 in
  add_divisor (add_weight a b) = 7 /\ add a b = a.
Proof.
  intros a b.
  destruct (add_divides_by_combined_weight a b) as (_ & Hd & _ & _ & Hz).
  - unfold is_uint64. cbn. lia.
  - unfold is_uint64. cbn. lia.
  - reflexivity.
  - split; [exact Hd | apply Hz; cbn; lia].
Defined.

End CentroidFacts.

Section MergeFacts.
Local Open Scope Z_scope.

Lemma mean_ordered_refl r a : mean_ordered r a a.
Proof. destruct r; cbn; lra. Qed.

Lemma mean_ordered_trans r a b c :
  mean_ordered r a b -> mean_ordered r b c -> mean_ordered r a c.
Proof. destruct r; cbn; lra. Qed.

Lemma HdRel_weaken r a a' l :
  mean_ordered r a' a -> HdRel (mean_ordered r) a l ->
  HdRel (mean_ordered r) a' l.
Proof.
  intros Ha Hl. destruct Hl as [|b l Hb]; constructor.
  eapply mean_ordered_trans; eassumption.
Qed.

(** The combined mean lies between the two means it combines, as long
    as the weights are positive and their sum does not wrap. *)
Lemma add_between r (cur c : centroid R) :
  positive_weight cur -> positive_weight c ->
  weight_ cur + weight_ c < 2 ^ 64 ->
  mean_ordered r cur c ->
  mean_ordered r cur (add cur c) /\ mean_ordered r (add cur c) c.
Proof.
  unfold positive_weight. intros Hcur Hc Hfit Hord.
  assert (Hm : mean_ (add cur c) =
               (mean_ cur + (mean_ c - mean_ cur)
                            * (IZR (weight_ c) / IZR (weight_ cur + weight_ c)))%R).
  { cbn. rewrite uint64_add_exact by lia. unfold Rdiv. ring. }
  assert (Hw : (0 < IZR (weight_ cur + weight_ c))%R) by (apply IZR_lt; lia).
  assert (Hc0 : (0 <= IZR (weight_ c))%R) by (apply IZR_le; lia).
  assert (Hle : (IZR (weight_ c) <= IZR (weight_ cur + weight_ c))%R)
    by (apply IZR_le; lia).
  set (t := (IZR (weight_ c) / IZR (weight_ cur + weight_ c))%R) in *.
  assert (Ht0 : (0 <= t)%R).
  { unfold t. apply Rmult_le_pos; [exact Hc0|].
    left. now apply Rinv_0_lt_compat. }
  assert (Ht1 : (t <= 1)%R).
  { unfold t. apply Rmult_le_reg_r with (r := IZR (weight_ cur + weight_ c));
      [exact Hw|].
    unfold Rdiv. rewrite Rmult_assoc, Rinv_l by lra. lra. }
  destruct r; cbn [mean_ordered] in *; rewrite Hm; split; nra.
Qed.

Lemma add_weight_exact (cur c : centroid R) :
  positive_weight cur -> positive_weight c ->
  weight_ cur + weight_ c < 2 ^ 64 ->
  weight_ (add cur c) = weight_ cur + weight_ c.
Proof.
  unfold positive_weight. intros Hcur Hc Hfit. cbn.
  apply uint64_add_exact; lia.
Qed.

Lemma sum_weights_nonneg (l : list (centroid R)) :
  Forall positive_weight l -> 0 <= sum_weights l.
Proof.
  induction 1 as [|c l Hc _ IH]; cbn; [lia|].
  unfold positive_weight in Hc. lia.
Qed.

Lemma sum_weights_app {T} (l1 l2 : list (centroid T)) :
  sum_weights (l1 ++ l2) = sum_weights l1 + sum_weights l2.
Proof. induction l1 as [|c l1 IH]; cbn; [reflexivity|]. rewrite IH. lia. Qed.

Lemma sum_weights_rev {T} (l : list (centroid T)) :
  sum_weights (rev l) = sum_weights l.
Proof.
  induction l as [|c l IH]; cbn; [reflexivity|].
  rewrite sum_weights_app, IH. cbn. lia.
Qed.

(** The scan of steps 6 and 7 keeps the order of means, the
    positivity of the weights and their sum. *)
Lemma merge_scan_ordered r N n rest :
  forall (cur : centroid R) wsf ql,
    HdRel (mean_ordered r) cur rest ->
    Sorted (mean_ordered r) rest ->
    positive_weight cur -> Forall positive_weight rest ->
    weight_ cur + sum_weights rest < 2 ^ 64 ->
    let out := merge_scan N n cur wsf ql rest in
    HdRel (mean_ordered r) cur out
    /\ Sorted (mean_ordered r) out
    /\ Forall positive_weight out
    /\ sum_weights out = weight_ cur + sum_weights rest.
Proof.
  induction rest as [|c rest IH]; intros cur wsf ql Hhd Hs Hcur Hrest Hfit.
  - cbn. refine (conj _ (conj _ (conj _ _))).
    + constructor. apply mean_ordered_refl.
    + constructor; constructor.
    + constructor; [exact Hcur | constructor].
    + lia.
  - apply HdRel_inv in Hhd. apply Sorted_inv in Hs. destruct Hs as [Hs Hhd'].
    apply Forall_cons_iff in Hrest. destruct Hrest as [Hc Hrest].
    pose proof (sum_weights_nonneg rest Hrest) as Hnn.
    cbn [sum_weights] in Hfit.
    cbn [merge_scan].
    destruct (should_merge N n wsf ql cur c).
    + destruct (add_between r cur c Hcur Hc ltac:(lia) Hhd) as [Hlo Hhi].
      pose proof (add_weight_exact cur c Hcur Hc ltac:(lia)) as Hw.
      destruct (IH (add cur c) wsf ql) as (H1 & H2 & H3 & H4).
      * eapply HdRel_weaken; eassumption.
      * exact Hs.
      * unfold positive_weight in *. lia.
      * exact Hrest.
      * lia.
      * refine (conj _ (conj _ (conj _ _))).
        -- eapply HdRel_weaken; eassumption.
        -- exact H2.
        -- exact H3.
        -- rewrite H4, Hw. cbn [sum_weights]. lia.
    + match goal with
      | |- context [merge_scan N n c ?w ?l rest] =>
          destruct (IH c w l Hhd' Hs Hc Hrest ltac:(unfold positive_weight in *; lia))
            as (H1 & H2 & H3 & H4)
      end.
      refine (conj _ (conj _ (conj _ _))).
      * constructor. apply mean_ordered_refl.
      * constructor; [exact H2|]. eapply HdRel_weaken; eassumption.
      * constructor; assumption.
      * cbn [sum_weights]. rewrite H4. reflexivity.
Qed.

Lemma merge_pass_ordered r delta n (l : list (centroid R)) :
  Sorted (mean_ordered r) l -> Forall positive_weight l ->
  sum_weights l < 2 ^ 64 ->
  Sorted (mean_ordered r) (merge_pass delta n l)
  /\ Forall positive_weight (merge_pass delta n l)
  /\ sum_weights (merge_pass delta n l) = sum_weights l.
Proof.
  intros Hs Hp Hfit. destruct l as [|c0 rest].
  - cbn. refine (conj _ (conj _ _)); constructor.
  - apply Sorted_inv in Hs. destruct Hs as [Hs Hhd].
    apply Forall_cons_iff in Hp. destruct Hp as [Hc Hp].
    unfold merge_pass.
    edestruct (merge_scan_ordered r) as (_ & H2 & H3 & H4);
      [exact Hhd | exact Hs | exact Hc | exact Hp | exact Hfit |].
    refine (conj H2 (conj H3 H4)).
Qed.

(** The comparator handed to the sort, by direction. *)
Lemma cmp_true_ordered (r : bool) (y x : centroid R) :
  (if r then fun a b => centroid_cmp b a else centroid_cmp) y x = true ->
  mean_ordered r y x.
Proof.
  destruct r; unfold centroid_cmp, get_mean; cbn; unfold Rltb;
    destruct (Rlt_dec _ _); intros; try discriminate; lra.
Qed.

Lemma cmp_false_ordered (r : bool) (y x : centroid R) :
  (if r then fun a b => centroid_cmp b a else centroid_cmp) y x = false ->
  mean_ordered r x y.
Proof.
  destruct r; unfold centroid_cmp, get_mean; cbn; unfold Rltb;
    destruct (Rlt_dec _ _); intros; try discriminate; lra.
Qed.

(** The sort moves centroids and changes none. *)
Lemma insert_sorted_Forall {A} (P : A -> Prop) lt x l :
  P x -> Forall P l -> Forall P (insert_sorted lt x l).
Proof.
  intros Hx. induction 1 as [|y l Hy Hl IH]; cbn.
  - now repeat constructor.
  - destruct (lt y x); repeat constructor; assumption.
Qed.

Lemma stable_sort_Forall {A} (P : A -> Prop) lt l :
  Forall P l -> Forall P (stable_sort lt l).
Proof.
  induction 1 as [|x l Hx Hl IH]; cbn; [constructor|].
  now apply insert_sorted_Forall.
Qed.

Lemma insert_sorted_length {A} lt (x : A) l :
  length (insert_sorted lt x l) = S (length l).
Proof.
  induction l as [|y l IH]; cbn; [reflexivity|].
  destruct (lt y x); cbn; [rewrite IH|]; reflexivity.
Qed.

Lemma stable_sort_length {A} lt (l : list A) :
  length (stable_sort lt l) = length l.
Proof.
  unfold stable_sort.
  induction l as [|x l IH]; cbn [fold_right length]; [reflexivity|].
  rewrite insert_sorted_length, IH. reflexivity.
Qed.

Lemma insert_sorted_sum {T} lt (x : centroid T) l :
  sum_weights (insert_sorted lt x l) = weight_ x + sum_weights l.
Proof.
  induction l as [|y l IH]; cbn; [reflexivity|].
  destruct (lt y x); cbn; [rewrite IH|]; lia.
Qed.

Lemma stable_sort_sum {T} lt (l : list (centroid T)) :
  sum_weights (stable_sort lt l) = sum_weights l.
Proof.
  unfold stable_sort.
  induction l as [|x l IH]; cbn [fold_right sum_weights]; [reflexivity|].
  rewrite insert_sorted_sum, IH. reflexivity.
Qed.

Section InsertionSort.
Variable r : bool.
Let lt : centroid R -> centroid R -> bool :=
  if r then fun a b => centroid_cmp b a else centroid_cmp.

Lemma insert_sorted_HdRel y x l :
  mean_ordered r y x -> HdRel (mean_ordered r) y l ->
  HdRel (mean_ordered r) y (insert_sorted lt x l).
Proof.
  intros Hyx Hl. destruct l as [|z l]; cbn.
  - now constructor.
  - apply HdRel_inv in Hl. destruct (lt z x); now constructor.
Qed.

Lemma insert_sorted_ordered x l :
  Sorted (mean_ordered r) l ->
  Sorted (mean_ordered r) (insert_sorted lt x l).
Proof.
  induction l as [|y l IH]; intros Hs; cbn.
  - constructor; constructor.
  - apply Sorted_inv in Hs. destruct Hs as [Hs Hhd].
    destruct (lt y x) eqn:E.
    + constructor; [now apply IH|].
      apply insert_sorted_HdRel; [|exact Hhd].
      now apply cmp_true_ordered.
    + constructor.
      * now constructor.
      * constructor. now apply cmp_false_ordered.
Qed.

Lemma stable_sort_ordered l :
  Sorted (mean_ordered r) (stable_sort lt l).
Proof.
  induction l as [|x l IH]; cbn; [constructor|].
  now apply insert_sorted_ordered.
Qed.

End InsertionSort.

(** Reversing a descending array gives an ascending one. *)
Lemma StronglySorted_snoc r (l : list (centroid R)) a :
  StronglySorted (mean_ordered r) l ->
  Forall (fun x => mean_ordered r x a) l ->
  StronglySorted (mean_ordered r) (l ++ [a]).
Proof.
  induction 1 as [|b l Hl IH Hb]; intros Ha; cbn.
  - constructor; constructor.
  - apply Forall_cons_iff in Ha. destruct Ha as [Hba Ha].
    constructor; [now apply IH|].
    apply Forall_app. split; [exact Hb|]. now repeat constructor.
Qed.

Lemma rev_ordered (l : list (centroid R)) :
  Sorted (mean_ordered true) l -> Sorted (mean_ordered false) (rev l).
Proof.
  intros Hs. apply StronglySorted_Sorted.
  apply Sorted_StronglySorted in Hs;
    [|intros a b c; apply mean_ordered_trans].
  induction Hs as [|a l Hl IH Ha]; cbn; [constructor|].
  apply StronglySorted_snoc; [exact IH|].
  apply Forall_rev. exact Ha.
Qed.

End MergeFacts.

Section MonotoneCentroids.
Variable tune : tuning.
Local Open Scope Z_scope.

Lemma digest_ok_nonneg d n : digest_ok d n -> 0 <= n.
Proof.
  intros (_ & Hc & Hb & Hn).
  pose proof (sum_weights_nonneg _ Hc). pose proof (sum_weights_nonneg _ Hb).
  lia.
Qed.

Lemma merge_buffered_ok (d : tdigest R) n :
  digest_ok d n -> n < 2 ^ 64 -> digest_ok (merge_buffered d) n.
Proof.
  intros Hok Hfit. unfold merge_buffered.
  destruct (buffer_ d) as [|b0 bs] eqn:Ebuf; [exact Hok|].
  rewrite <- Ebuf. clear Ebuf b0 bs.
  destruct Hok as (Hs & Hc & Hb & Hn).
  set (reverse := USE_ALTERNATING_SORT && reverse_merge_ d).
  set (lt := if reverse then fun a b : centroid R => centroid_cmp b a
             else centroid_cmp).
  set (n' := uint64_add (centroids_weight_ d) (buffered_weight_ d)).
  set (sorted := stable_sort lt (buffer_ d ++ centroids_ d)).
  assert (Hall : Forall positive_weight (buffer_ d ++ centroids_ d))
    by (apply Forall_app; now split).
  assert (Hsum : sum_weights sorted = n).
  { unfold sorted, lt. rewrite stable_sort_sum, sum_weights_app. lia. }
  destruct (merge_pass_ordered reverse (internal_k_ d) n' sorted)
    as (M1 & M2 & M3).
  { apply stable_sort_ordered. }
  { now apply stable_sort_Forall. }
  { lia. }
  unfold digest_ok. cbn [centroids_ buffer_ sum_weights].
  destruct reverse.
  - refine (conj _ (conj _ (conj _ _))).
    + now apply rev_ordered.
    + now apply Forall_rev.
    + constructor.
    + rewrite sum_weights_rev. lia.
  - refine (conj M1 (conj M2 (conj _ _))).
    + constructor.
    + lia.
Qed.

Lemma second_pass_ok (d : tdigest R) n :
  digest_ok d n -> n < 2 ^ 64 -> digest_ok (second_pass d) n.
Proof.
  intros Hok Hfit. pose proof Hok as (Hs & Hc & Hb & Hn).
  unfold second_pass. destruct USE_TWO_LEVEL_COMPRESSION; [|exact Hok].
  pose proof (sum_weights_nonneg _ Hb) as Hbn.
  destruct (merge_pass_ordered false (k_ d) (centroids_weight_ d)
              (centroids_ d) Hs Hc ltac:(lia)) as (M1 & M2 & M3).
  unfold digest_ok. cbn [centroids_ buffer_].
  refine (conj M1 (conj M2 (conj Hb _))). lia.
Qed.

Lemma compress_ok (d : tdigest R) n :
  digest_ok d n -> n < 2 ^ 64 -> digest_ok (compress d) n.
Proof.
  intros Hok Hfit. unfold compress.
  destruct (buffer_ d); [exact Hok|].
  apply second_pass_ok; [|exact Hfit].
  now apply merge_buffered_ok.
Qed.

Lemma append_buffer_ok (d : tdigest R) n mean weight :
  digest_ok d n -> 1 <= weight -> n + weight < 2 ^ 64 ->
  digest_ok (append_buffer mean weight d) (n + weight).
Proof.
  intros (Hs & Hc & Hb & Hn) Hw Hfit. unfold append_buffer.
  match goal with
  | |- digest_ok (if _ then merge_buffered ?d1 else _) _ =>
      assert (Hd1 : digest_ok d1 (n + weight))
  end.
  { unfold digest_ok. cbn [centroids_ buffer_].
    refine (conj Hs (conj Hc (conj _ _))).
    - apply Forall_app. split; [exact Hb|]. now repeat constructor.
    - rewrite sum_weights_app. cbn. lia. }
  destruct (_ =? _); [|exact Hd1].
  now apply merge_buffered_ok.
Qed.

Lemma update_ok (d : tdigest R) n value :
  digest_ok d n -> n + 1 < 2 ^ 64 -> digest_ok (update value d) (n + 1).
Proof.
  intros (Hs & Hc & Hb & Hn) Hfit. unfold update. cbn [Tisnan R_FloatType].
  apply append_buffer_ok; [|lia|exact Hfit].
  unfold digest_ok. cbn [centroids_ buffer_]. auto.
Qed.

Lemma merge_ok (d other : tdigest R) n m :
  digest_ok d n -> digest_ok other m -> n + m < 2 ^ 64 ->
  digest_ok (merge other d) (n + m).
Proof.
  intros (Hs & Hc & Hb & Hn) (_ & Hoc & Hob & Hm) Hfit. unfold merge.
  apply merge_buffered_ok; [|exact Hfit].
  unfold digest_ok. cbn [centroids_ buffer_].
  refine (conj Hs (conj Hc (conj _ _))).
  - repeat (apply Forall_app; split); assumption.
  - rewrite !sum_weights_app. lia.
Qed.

Lemma tdigest_new_ok k (d : tdigest R) :
  tdigest_new tune k = Ok d -> digest_ok d 0.
Proof.
  unfold tdigest_new. destruct (k <? K_MIN tune); [discriminate|].
  intros [= <-]. unfold digest_ok. cbn.
  refine (conj _ (conj _ (conj _ _))); constructor.
Qed.

Lemma built_nonneg {T} `{FloatType T} (d : tdigest T) n :
  built tune d n -> 0 <= n.
Proof. induction 1; lia. Qed.

Lemma built_ok (d : tdigest R) n :
  built tune d n -> n < 2 ^ 64 -> digest_ok d n.
Proof.
  induction 1 as [k d Hk Hnew | d n value Hd IH Hnan
                 | d n other m Hd IHd Ho IHo | d n Hd IH]; intros Hfit.
  - eapply tdigest_new_ok; eassumption.
  - apply update_ok; [apply IH; lia | exact Hfit].
  - pose proof (built_nonneg _ _ Hd). pose proof (built_nonneg _ _ Ho).
    apply merge_ok; [apply IHd; lia | apply IHo; lia | exact Hfit].
  - apply compress_ok; [now apply IH | exact Hfit].
Qed.

Lemma ordered_means (l : list (centroid R)) :
  Sorted (mean_ordered false) l -> Sorted Rle (map mean_ l).
Proof.
  induction 1 as [|a l Hl IH Ha]; cbn; [constructor|].
  constructor; [exact IH|].
  destruct Ha as [|b l Hab]; cbn; constructor. exact Hab.
Qed.


End MonotoneCentroids.


Section EmptyDigest.
Context {T : Type} `{FloatType T}.
Variable tune : tuning.

Lemma tdigest_new_inv k (d : tdigest T) :
  tdigest_new tune k = Ok d ->
  d = make_tdigest tune false k None None [] 0.
Proof.
  unfold tdigest_new. destruct (k <? K_MIN tune)%Z; [discriminate|].
  now intros [= <-].
Qed.

(** C7: on a freshly constructed digest [is_empty()] is true,
    [get_total_weight()] is 0, and [get_rank(v)] and
    [get_quantile(r)] are the quiet NaN for every value [v] and every
    rank [r] of [[0,1]]. *)
Theorem empty_digest_queries (k : Z) (d : tdigest T) :
  tdigest_new tune k = Ok d ->
  is_empty d = true
  /\ get_total_weight d = 0%Z
  /\ (forall v : T, fst (get_rank v d) = quiet_NaN)
  /\ (forall r : R,
        (0 <= r <= 1)%R -> fst (get_quantile r d) = Ok quiet_NaN).
Proof.
  intros Hnew. apply tdigest_new_inv in Hnew. subst d.
  refine (conj _ (conj _ (conj _ _))).
  - reflexivity.
  - reflexivity.
  - intros v. reflexivity.
  - intros r _. reflexivity.
Qed.

End EmptyDigest.

Lemma empty_digest_queries_witness :
  let d : tdigest R := make_tdigest reference_tuning false 100 None None [] 0 in
  is_empty d = true
  /\ get_total_weight d = 0%Z
  /\ fst (get_rank 0%R d) = quiet_NaN
  /\ fst (get_quantile 0.5%R d) = Ok quiet_NaN.
Proof.
  intros d.
  destruct (empty_digest_queries reference_tuning 100 d) as (H1 & H2 & H3 & H4).
  - reflexivity.
  - refine (conj H1 (conj H2 (conj (H3 _) (H4 _ _)))). lra.
Defined.

Section CodecConstants.
Context {T : Type} `{FloatType T} `{FloatCodec T}.

Lemma flags_byte_cases (d : tdigest T) :
  flags_byte d =
  ((if is_empty d then 1 else 0) + (if reverse_merge_ d then 2 else 0))%Z.
Proof.
  unfold flags_byte. destruct (is_empty d), (reverse_merge_ d); reflexivity.
Qed.

(** C8: the codec's reserved constants are [SERIAL_VERSION = 1],
    [SKETCH_TYPE = 20], [COMPAT_DOUBLE = 1] and [COMPAT_FLOAT = 2];
    the serial version, the sketch type and the flags are the bytes
    at offsets 1, 2 and 3 of what [serialize] writes; bit 0 of the
    flags byte is [is_empty], bit 1 is [reverse_merge], and no other
    bit is set. *)
Theorem codec_constants (d : tdigest T) :
  SERIAL_VERSION = 1%Z /\ SKETCH_TYPE = 20%Z
  /\ COMPAT_DOUBLE = 1%Z /\ COMPAT_FLOAT = 2%Z
  /\ flags_value IS_EMPTY = 0%Z /\ flags_value REVERSE_MERGE = 1%Z
  /\ nth_error (fst (serialize 0 d)) 1 = Some (byte.of_Z SERIAL_VERSION)
  /\ nth_error (fst (serialize 0 d)) 2 = Some (byte.of_Z SKETCH_TYPE)
  /\ nth_error (fst (serialize 0 d)) 3
     = Some (byte.of_Z (flags_byte (snd (serialize 0 d))))
  /\ Z.testbit (flags_byte d) 0 = is_empty d
  /\ Z.testbit (flags_byte d) 1 = reverse_merge_ d
  /\ (forall i, (2 <= i)%Z -> Z.testbit (flags_byte d) i = false).
Proof.
  repeat (split; [reflexivity|]).
  rewrite flags_byte_cases.
  refine (conj _ (conj _ _)).
  - destruct (is_empty d), (reverse_merge_ d); reflexivity.
  - destruct (is_empty d), (reverse_merge_ d); reflexivity.
  - intros i Hi.
    assert (Hr : (0 <= (if is_empty d then 1 else 0)
                       + (if reverse_merge_ d then 2 else 0) < 2 ^ 2)%Z)
      by (destruct (is_empty d), (reverse_merge_ d); cbn; lia).
    revert Hr. generalize ((if is_empty d then 1 else 0)
                           + (if reverse_merge_ d then 2 else 0))%Z.
    intros z Hz. destruct (Z.eq_dec z 0) as [->|Hnz].
    + apply Z.testbit_0_l.
    + apply Z.bits_above_log2; [lia|].
      assert (Z.log2 z < 2)%Z by (apply Z.log2_lt_pow2; lia). lia.
Qed.

End CodecConstants.

Section ReaderFacts.
Local Open Scope Z_scope.

Lemma bind_ok {A B} (m : reader A) (f : A -> reader B) bs a bs' :
  m bs = Ok (a, bs') -> bind m f bs = f a bs'.
Proof. unfold bind. now intros ->. Qed.

Lemma read_bytes_app l rest :
  read_bytes (length l) (l ++ rest) = Ok (l, rest).
Proof.
  unfold read_bytes. rewrite length_app.
  destruct (Nat.ltb_spec (length l + length rest) (length l)); [lia|].
  f_equal. f_equal.
  - rewrite firstn_app, Nat.sub_diag, firstn_all. cbn. apply app_nil_r.
  - rewrite skipn_app, Nat.sub_diag, skipn_all. reflexivity.
Qed.

Lemma read_uint_write n z rest :
  read_uint n (write_uint n z ++ rest)
  = Ok (z mod 2 ^ (Z.of_nat n * 8), rest).
Proof.
  unfold read_uint, write_uint.
  pose proof (read_bytes_app (le_split n z) rest) as Hr.
  rewrite length_le_split in Hr.
  rewrite (bind_ok _ _ _ _ _ Hr).
  unfold ret. now rewrite le_combine_split.
Qed.

Lemma read_T_write {T} `{FloatCodec T} (x : T) rest :
  read_T (T_to_bytes x ++ rest) = Ok (x, rest).
Proof.
  unfold read_T.
  pose proof (read_bytes_app (T_to_bytes x) rest) as Hr.
  rewrite T_to_bytes_length in Hr.
  rewrite (bind_ok _ _ _ _ _ Hr).
  unfold ret. now rewrite T_of_to_bytes.
Qed.

(** Reading back a sequence written item by item. *)
Lemma read_many_flat_map {A B} (r : reader A) (enc : B -> list byte)
    (dec : B -> A) :
  (forall b rest, r (enc b ++ rest) = Ok (dec b, rest)) ->
  forall l rest,
    read_many r (length l) (flat_map enc l ++ rest) = Ok (map dec l, rest).
Proof.
  intros Hr. induction l as [|b l IH]; intros rest; cbn.
  - reflexivity.
  - rewrite <- app_assoc.
    rewrite (bind_ok _ _ _ _ _ (Hr b _)).
    rewrite (bind_ok _ _ _ _ _ (IH rest)).
    reflexivity.
Qed.

Lemma combine_means_weights {T} (l : list (centroid T)) (f : Z -> Z) :
  Forall (fun c => f (weight_ c) = weight_ c) l ->
  map (fun mw => Centroid (fst mw) (snd mw))
      (combine (map mean_ l) (map (fun c => f (weight_ c)) l)) = l.
Proof.
  induction 1 as [|c l Hc Hl IH]; cbn; [reflexivity|].
  rewrite IH, Hc. now destruct c.
Qed.

End ReaderFacts.

Section WrappedWeights.
Context {T : Type} `{FloatType T}.
Local Open Scope Z_scope.

Lemma uint64_wrap_add_l a b :
  uint64_wrap (uint64_wrap a + b) = uint64_wrap (a + b).
Proof. unfold uint64_wrap. apply Zplus_mod_idemp_l. Qed.

Lemma uint64_wrap_add_r a b :
  uint64_wrap (a + uint64_wrap b) = uint64_wrap (a + b).
Proof. unfold uint64_wrap. apply Zplus_mod_idemp_r. Qed.

Lemma uint64_wrap_idem a : uint64_wrap (uint64_wrap a) = uint64_wrap a.
Proof. unfold uint64_wrap. apply Z.mod_mod. lia. Qed.

Lemma add_weight_fits (cur c : centroid T) : weight_fits (add cur c).
Proof. unfold weight_fits. cbn. apply uint64_wrap_range. Qed.

(** The scan keeps the [uint64_t] sum of the weights, never makes the
    array longer and never leaves it empty. *)
Lemma merge_scan_wrapped N n rest :
  forall (cur : centroid T) wsf ql,
    weight_fits cur -> Forall weight_fits rest ->
    let out := merge_scan N n cur wsf ql rest in
    Forall weight_fits out
    /\ uint64_wrap (sum_weights out)
       = uint64_wrap (weight_ cur + sum_weights rest)
    /\ (length out <= S (length rest))%nat
    /\ out <> [].
Proof.
  induction rest as [|c rest IH]; intros cur wsf ql Hcur Hrest.
  - cbn. refine (conj _ (conj _ (conj _ _))).
    + constructor; [exact Hcur | constructor].
    + reflexivity.
    + lia.
    + discriminate.
  - apply Forall_cons_iff in Hrest. destruct Hrest as [Hc Hrest].
    cbn [merge_scan].
    destruct (should_merge N n wsf ql cur c).
    + destruct (IH (add cur c) wsf ql (add_weight_fits cur c) Hrest)
        as (H1 & H2 & H3 & H4).
      refine (conj H1 (conj _ (conj _ H4))).
      * rewrite H2. cbn [sum_weights add add_mean add_weight weight_].
        unfold uint64_add. rewrite uint64_wrap_add_l. f_equal. lia.
      * cbn [length]. lia.
    + match goal with
      | |- context [merge_scan N n c ?w ?l rest] =>
          destruct (IH c w l Hc Hrest) as (H1 & H2 & H3 & H4)
      end.
      refine (conj _ (conj _ (conj _ _))).
      * now constructor.
      * cbn [sum_weights].
        rewrite <- uint64_wrap_add_r, H2, uint64_wrap_add_r. reflexivity.
      * cbn [length]. lia.
      * discriminate.
Qed.

Lemma merge_pass_wrapped delta n (l : list (centroid T)) :
  Forall weight_fits l ->
  Forall weight_fits (merge_pass delta n l)
  /\ uint64_wrap (sum_weights (merge_pass delta n l))
     = uint64_wrap (sum_weights l)
  /\ (length (merge_pass delta n l) <= length l)%nat
  /\ (l <> [] -> merge_pass delta n l <> []).
Proof.
  intros Hl. destruct l as [|c0 rest].
  - cbn. refine (conj _ (conj _ (conj _ _))); auto.
  - apply Forall_cons_iff in Hl. destruct Hl as [Hc Hl].
    unfold merge_pass.
    edestruct merge_scan_wrapped as (H1 & H2 & H3 & H4); [exact Hc|exact Hl|].
    refine (conj H1 (conj H2 (conj H3 (fun _ => H4)))).
Qed.

End WrappedWeights.

Section CompressFacts.
Context {T : Type} `{FloatType T}.
Local Open Scope Z_scope.

Lemma is_empty_true (d : tdigest T) :
  is_empty d = true <-> centroids_ d = [] /\ buffer_ d = [].
Proof.
  unfold is_empty. destruct (centroids_ d), (buffer_ d); split;
    intros; try discriminate; intuition (auto; discriminate).
Qed.

Lemma is_empty_false (d : tdigest T) :
  centroids_ d <> [] -> is_empty d = false.
Proof. unfold is_empty. destruct (centroids_ d); [contradiction|reflexivity]. Qed.

Lemma min_seen_some (m : option T) x : min_seen m x <> None.
Proof. destruct m; discriminate. Qed.

Lemma max_seen_some (m : option T) x : max_seen m x <> None.
Proof. destruct m; discriminate. Qed.

Lemma rev_not_nil {A} (l : list A) : l <> [] -> rev l <> [].
Proof.
  intros Hl Hr. apply Hl. apply (f_equal (@rev A)) in Hr.
  now rewrite rev_involutive in Hr.
Qed.

Lemma not_nil_length {A} (l : list A) : l <> [] <-> (0 < length l)%nat.
Proof. destruct l; cbn; split; intros; try lia; congruence. Qed.

Lemma merge_buffered_serializable (d : tdigest T) :
  serializable d -> buffer_ d <> [] ->
  serializable (merge_buffered d)
  /\ centroids_ (merge_buffered d) <> []
  /\ buffer_ (merge_buffered d) = []
  /\ k_ (merge_buffered d) = k_ d
  /\ get_total_weight (merge_buffered d) = get_total_weight d.
Proof.
  intros (Hk & Hc & Hb & Hlen & Hcw & Hbw & Hempty & Hminmax) Hne.
  unfold merge_buffered.
  destruct (buffer_ d) as [|b0 bs] eqn:Ebuf; [contradiction|].
  rewrite <- Ebuf in *. clear Ebuf b0 bs.
  set (reverse := USE_ALTERNATING_SORT && reverse_merge_ d).
  set (lt := if reverse then fun a b : centroid T => centroid_cmp b a
             else centroid_cmp).
  set (n := uint64_add (centroids_weight_ d) (buffered_weight_ d)).
  set (sorted := stable_sort lt (buffer_ d ++ centroids_ d)).
  set (merged := merge_pass (internal_k_ d) n sorted).
  set (final := if reverse then rev merged else merged).
  assert (Hsorted_fits : Forall weight_fits sorted).
  { apply stable_sort_Forall. apply Forall_app. now split. }
  assert (Hsorted_len : length sorted
                        = (length (centroids_ d) + length (buffer_ d))%nat).
  { unfold sorted. rewrite stable_sort_length, length_app. lia. }
  assert (Hsorted_ne : sorted <> []).
  { apply not_nil_length. apply not_nil_length in Hne. lia. }
  destruct (merge_pass_wrapped (internal_k_ d) n sorted Hsorted_fits)
    as (M1 & M2 & M3 & M4).
  fold merged in M1, M2, M3, M4. specialize (M4 Hsorted_ne).
  assert (Hfinal_fits : Forall weight_fits final).
  { unfold final. destruct reverse; [now apply Forall_rev | exact M1]. }
  assert (Hfinal_len : (length final <= length sorted)%nat).
  { unfold final. destruct reverse; [rewrite length_rev|]; exact M3. }
  assert (Hfinal_sum : sum_weights final = sum_weights merged).
  { unfold final. destruct reverse; [apply sum_weights_rev|reflexivity]. }
  assert (Hfinal_ne : final <> []).
  { unfold final. destruct reverse; [now apply rev_not_nil | exact M4]. }
  assert (Hn : n = uint64_wrap (sum_weights final)).
  { rewrite Hfinal_sum, M2. unfold sorted.
    rewrite stable_sort_sum, sum_weights_app.
    unfold n, uint64_add. rewrite Hcw, Hbw.
    rewrite uint64_wrap_add_l, uint64_wrap_add_r. f_equal. lia. }
  refine (conj _ (conj Hfinal_ne (conj eq_refl (conj eq_refl _)))).
  - unfold serializable.
    cbn [k_ centroids_ buffer_ centroids_weight_ buffered_weight_ min_ max_].
    refine (conj Hk (conj Hfinal_fits (conj _ (conj _ (conj Hn
              (conj eq_refl (conj _ _))))))).
    + constructor.
    + cbn [length]. lia.
    + intros He. apply is_empty_true in He. cbn [centroids_] in He.
      destruct He as [He _]. contradiction.
    + intros _. destruct final as [|c0 final'] eqn:Ef; [contradiction|].
      rewrite <- Ef. split.
      * apply min_seen_some.
      * destruct (rev final) as [|cl rl] eqn:Er.
        -- exfalso. apply (rev_not_nil final); [rewrite Ef; discriminate|exact Er].
        -- apply max_seen_some.
  - unfold get_total_weight. cbn [centroids_weight_ buffered_weight_].
    fold n. unfold uint64_add at 1. rewrite Z.add_0_r.
    unfold n, uint64_add. apply uint64_wrap_idem.
Qed.

Lemma second_pass_serializable (d : tdigest T) :
  serializable d -> centroids_ d <> [] ->
  serializable (second_pass d)
  /\ centroids_ (second_pass d) <> []
  /\ buffer_ (second_pass d) = buffer_ d
  /\ k_ (second_pass d) = k_ d
  /\ get_total_weight (second_pass d) = get_total_weight d.
Proof.
  intros Hser Hne. unfold second_pass.
  destruct USE_TWO_LEVEL_COMPRESSION; [|now auto].
  destruct Hser as (Hk & Hc & Hb & Hlen & Hcw & Hbw & Hempty & Hminmax).
  destruct (merge_pass_wrapped (k_ d) (centroids_weight_ d) (centroids_ d) Hc)
    as (M1 & M2 & M3 & M4).
  specialize (M4 Hne).
  refine (conj _ (conj M4 (conj eq_refl (conj eq_refl eq_refl)))).
  unfold serializable.
  cbn [k_ centroids_ buffer_ centroids_weight_ buffered_weight_ min_ max_].
  refine (conj Hk (conj M1 (conj Hb (conj _ (conj _ (conj Hbw (conj _ _))))))).
  - lia.
  - now rewrite M2.
  - intros He. apply is_empty_true in He. cbn [centroids_] in He.
    destruct He as [He _]. contradiction.
  - intros _. now apply Hminmax.
Qed.

Lemma compress_serializable (d : tdigest T) :
  serializable d ->
  serializable (compress d)
  /\ buffer_ (compress d) = []
  /\ k_ (compress d) = k_ d
  /\ get_total_weight (compress d) = get_total_weight d.
Proof.
  intros Hser. unfold compress.
  destruct (buffer_ d) as [|b0 bs] eqn:Ebuf; [now auto|].
  destruct (merge_buffered_serializable d Hser) as (S1 & N1 & B1 & K1 & W1).
  { rewrite Ebuf. discriminate. }
  destruct (second_pass_serializable _ S1 N1) as (S2 & N2 & B2 & K2 & W2).
  refine (conj S2 (conj _ (conj _ _))); congruence.
Qed.

Lemma compress_drained (d : tdigest T) : buffer_ d = [] -> compress d = d.
Proof. intros Hb. unfold compress. now rewrite Hb. Qed.

(** No operation makes the arrays longer than what was put in. *)
Lemma merge_scan_length N n rest :
  forall (cur : centroid T) wsf ql,
    (length (merge_scan N n cur wsf ql rest) <= S (length rest))%nat.
Proof.
  induction rest as [|c rest IH]; intros cur wsf ql; cbn [merge_scan length].
  - lia.
  - destruct (should_merge N n wsf ql cur c); cbn [length].
    + specialize (IH (add cur c) wsf ql). lia.
    + match goal with
      | |- context [merge_scan N n c ?w ?l rest] => specialize (IH c w l)
      end. lia.
Qed.

Lemma merge_pass_length delta n (l : list (centroid T)) :
  (length (merge_pass delta n l) <= length l)%nat.
Proof.
  destruct l as [|c0 rest]; unfold merge_pass; [cbn; lia|].
  apply merge_scan_length.
Qed.

Lemma merge_buffered_length (d : tdigest T) :
  (stored (merge_buffered d) <= stored d)%nat.
Proof.
  unfold stored, merge_buffered.
  destruct (buffer_ d) as [|b0 bs] eqn:Ebuf; [rewrite Ebuf; lia|].
  rewrite <- Ebuf. clear Ebuf b0 bs. cbn [centroids_ buffer_ length].
  match goal with
  | |- context [merge_pass ?k ?n ?l] =>
      pose proof (merge_pass_length k n l) as Hl; revert Hl;
      generalize (merge_pass k n l)
  end.
  rewrite stable_sort_length, length_app. intros merged Hl.
  destruct (USE_ALTERNATING_SORT && reverse_merge_ d);
    [rewrite length_rev|]; lia.
Qed.

Lemma second_pass_length (d : tdigest T) :
  (stored (second_pass d) <= stored d)%nat.
Proof.
  unfold stored, second_pass.
  destruct USE_TWO_LEVEL_COMPRESSION; [|lia]. cbn [centroids_ buffer_].
  pose proof (merge_pass_length (k_ d) (centroids_weight_ d) (centroids_ d)).
  lia.
Qed.

Lemma compress_length (d : tdigest T) :
  (stored (compress d) <= stored d)%nat.
Proof.
  unfold compress. destruct (buffer_ d); [lia|].
  pose proof (second_pass_length (merge_buffered d)).
  pose proof (merge_buffered_length d). lia.
Qed.

End CompressFacts.

Section RoundTrip.
Context {T : Type} `{FloatType T} `{FloatCodec T}.
Variable tune : tuning.
Variable deserialize_compat : list byte -> result (tdigest T).
Local Open Scope Z_scope.

Lemma flags_byte_small (d : tdigest T) : 0 <= flags_byte d < 4.
Proof.
  rewrite flags_byte_cases.
  destruct (is_empty d), (reverse_merge_ d); lia.
Qed.

Lemma flags_bit_is_empty (d : tdigest T) :
  Z.testbit (flags_byte d) (flags_value IS_EMPTY) = is_empty d.
Proof.
  rewrite flags_byte_cases.
  destruct (is_empty d), (reverse_merge_ d); reflexivity.
Qed.

Lemma flags_bit_reverse_merge (d : tdigest T) :
  Z.testbit (flags_byte d) (flags_value REVERSE_MERGE) = reverse_merge_ d.
Proof.
  rewrite flags_byte_cases.
  destruct (is_empty d), (reverse_merge_ d); reflexivity.
Qed.

Lemma seen_some (m : option T) : m <> None -> Some (seen m) = m.
Proof. destruct m; [reflexivity|contradiction]. Qed.

Lemma serialize_body_ext (d1 d2 : tdigest T) :
  is_empty d1 = is_empty d2 ->
  reverse_merge_ d1 = reverse_merge_ d2 ->
  k_ d1 = k_ d2 ->
  centroids_ d1 = centroids_ d2 ->
  length (buffer_ d1) = length (buffer_ d2) ->
  get_total_weight d1 = get_total_weight d2 ->
  seen (min_ d1) = seen (min_ d2) ->
  seen (max_ d1) = seen (max_ d2) ->
  serialize_body d1 = serialize_body d2.
Proof.
  intros He Hr Hk Hc Hb Hw Hmin Hmax. unfold serialize_body, flags_byte.
  now rewrite He, Hr, Hk, Hc, Hb, Hw, Hmin, Hmax.
Qed.

Lemma body_round_trip (d : tdigest T) :
  serializable d -> buffer_ d = [] ->
  exists d',
    deserialize tune deserialize_compat (serialize_body d) = Ok d'
    /\ k_ d' = k_ d
    /\ get_total_weight d' = get_total_weight d
    /\ min_ d' = min_ d /\ max_ d' = max_ d
    /\ buffer_ d' = []
    /\ serialize_body d' = serialize_body d.
Proof.
  intros (Hk & Hc & Hb & Hlen & Hcw & Hbw & Hempty & Hminmax) Hbuf.
  assert (Hflags : flags_byte d mod 2 ^ (Z.of_nat 1 * 8) = flags_byte d).
  { apply Z.mod_small. pose proof (flags_byte_small d).
    change (2 ^ (Z.of_nat 1 * 8)) with 256. lia. }
  assert (Hkmod : k_ d mod 2 ^ (Z.of_nat 2 * 8) = k_ d).
  { apply Z.mod_small. exact Hk. }
  assert (Htotal : get_total_weight d = uint64_wrap (sum_weights (centroids_ d))).
  { unfold get_total_weight, uint64_add. rewrite Hcw, Hbw, Hbuf. cbn [sum_weights].
    rewrite uint64_wrap_add_l, uint64_wrap_add_r, Z.add_0_r. reflexivity. }
  destruct (is_empty d) eqn:Eempty.
  - destruct (Hempty eq_refl) as [Hmin Hmax].
    pose proof (proj1 (is_empty_true d) Eempty) as [Ecs _].
    exists (make_tdigest tune (reverse_merge_ d) (k_ d) None None [] 0).
    split.
    + unfold deserialize, serialize_body. rewrite Eempty.
      do 3 rewrite (bind_ok _ _ _ _ _ (read_uint_write 1 _ _)).
      change (SKETCH_TYPE mod 2 ^ (Z.of_nat 1 * 8)) with SKETCH_TYPE.
      change (SERIAL_VERSION mod 2 ^ (Z.of_nat 1 * 8)) with SERIAL_VERSION.
      change (PREAMBLE_LONGS_EMPTY mod 2 ^ (Z.of_nat 1 * 8))
        with PREAMBLE_LONGS_EMPTY.
      rewrite !Z.eqb_refl. cbn [negb].
      rewrite (bind_ok _ _ _ _ _ (read_uint_write 1 _ _)).
      do 2 rewrite (bind_ok _ _ _ _ _ (read_uint_write 2 _ _)).
      rewrite Hflags, Hkmod, flags_bit_is_empty, flags_bit_reverse_merge.
      rewrite Eempty. rewrite Z.eqb_refl. reflexivity.
    + cbn [k_ min_ max_ buffer_ make_tdigest].
      refine (conj eq_refl (conj _ (conj _ (conj _ (conj eq_refl _))))).
      * rewrite Htotal, Ecs. reflexivity.
      * now rewrite Hmin.
      * now rewrite Hmax.
      * apply serialize_body_ext;
          cbn [k_ min_ max_ buffer_ centroids_ reverse_merge_ make_tdigest];
          try reflexivity.
        -- now rewrite Eempty.
        -- now rewrite Ecs.
        -- now rewrite Hbuf.
        -- rewrite Htotal, Ecs. reflexivity.
        -- now rewrite Hmin.
        -- now rewrite Hmax.
  - assert (Hne : centroids_ d <> []).
    { intros Ecs. rewrite (proj2 (is_empty_true d)) in Eempty;
        [discriminate | now split]. }
    destruct (Hminmax Hne) as [Hmin Hmax].
    assert (Htw : get_total_weight
                    (make_tdigest tune (reverse_merge_ d) (k_ d)
                       (Some (seen (min_ d))) (Some (seen (max_ d)))
                       (centroids_ d) (get_total_weight d))
                  = get_total_weight d).
    { unfold get_total_weight at 1.
      cbn [centroids_weight_ buffered_weight_ make_tdigest].
      unfold uint64_add. rewrite Z.add_0_r, Htotal. apply uint64_wrap_idem. }
    exists (make_tdigest tune (reverse_merge_ d) (k_ d)
              (Some (seen (min_ d))) (Some (seen (max_ d)))
              (centroids_ d) (get_total_weight d)).
    split.
    + unfold deserialize, serialize_body. rewrite Eempty.
      rewrite <- (app_nil_r (flat_map (fun c => write_uint 8 (weight_ c)) _)).
      do 3 rewrite (bind_ok _ _ _ _ _ (read_uint_write 1 _ _)).
      change (SKETCH_TYPE mod 2 ^ (Z.of_nat 1 * 8)) with SKETCH_TYPE.
      change (SERIAL_VERSION mod 2 ^ (Z.of_nat 1 * 8)) with SERIAL_VERSION.
      change (PREAMBLE_LONGS_NON_EMPTY mod 2 ^ (Z.of_nat 1 * 8))
        with PREAMBLE_LONGS_NON_EMPTY.
      rewrite !Z.eqb_refl. cbn [negb].
      rewrite (bind_ok _ _ _ _ _ (read_uint_write 1 _ _)).
      do 2 rewrite (bind_ok _ _ _ _ _ (read_uint_write 2 _ _)).
      rewrite Hflags, Hkmod, flags_bit_is_empty, flags_bit_reverse_merge.
      rewrite Eempty. rewrite Z.eqb_refl. cbn [negb].
      do 2 rewrite (bind_ok _ _ _ _ _ (read_uint_write 4 _ _)).
      rewrite (bind_ok _ _ _ _ _ (read_uint_write 8 _ _)).
      do 2 rewrite (bind_ok _ _ _ _ _ (read_T_write _ _)).
      assert (Hcount : Z.to_nat (Z.of_nat (length (centroids_ d))
                                 mod 2 ^ (Z.of_nat 4 * 8))
                       = length (centroids_ d)).
      { rewrite Z.mod_small; [apply Nat2Z.id|].
        change (2 ^ (Z.of_nat 4 * 8)) with (2 ^ 32). lia. }
      rewrite Hcount.
      rewrite (bind_ok _ _ _ _ _
                 (read_many_flat_map read_T
                    (fun c : centroid T => T_to_bytes (mean_ c)) mean_
                    (fun b rest => read_T_write (mean_ b) rest) _ _)).
      rewrite (bind_ok _ _ _ _ _
                 (read_many_flat_map (read_uint 8)
                    (fun c : centroid T => write_uint 8 (weight_ c))
                    (fun c => weight_ c mod 2 ^ (Z.of_nat 8 * 8))
                    (fun b rest => read_uint_write 8 (weight_ b) rest) _ _)).
      rewrite (combine_means_weights (centroids_ d)
                 (fun z => z mod 2 ^ (Z.of_nat 8 * 8))).
      2: { eapply Forall_impl; [|exact Hc]. intros c Hfit.
           apply Z.mod_small. exact Hfit. }
      assert (Htmod : get_total_weight d mod 2 ^ (Z.of_nat 8 * 8)
                      = get_total_weight d).
      { apply Z.mod_small. rewrite Htotal. apply uint64_wrap_range. }
      rewrite Htmod, <- Htotal, Z.eqb_refl. reflexivity.
    + refine (conj eq_refl (conj Htw (conj _ (conj _ (conj eq_refl _))))).
      * cbn [min_ make_tdigest]. now apply seen_some.
      * cbn [max_ make_tdigest]. now apply seen_some.
      * apply serialize_body_ext; try exact Htw;
          cbn [k_ min_ max_ buffer_ centroids_ reverse_merge_ make_tdigest seen];
          try reflexivity.
        -- rewrite Eempty. now apply is_empty_false.
        -- now rewrite Hbuf.
Qed.

End RoundTrip.


Section BuiltDigests.
Context {T : Type} `{FloatType T}.
Variable tune : tuning.
Local Open Scope Z_scope.

Lemma merge_buffered_keeps_serializable (d : tdigest T) :
  serializable d -> serializable (merge_buffered d).
Proof.
  intros Hser. destruct (buffer_ d) as [|b0 bs] eqn:Ebuf.
  - unfold merge_buffered. now rewrite Ebuf.
  - apply merge_buffered_serializable; [exact Hser|].
    rewrite Ebuf. discriminate.
Qed.

Lemma append_buffer_serializable (d : tdigest T) mean weight :
  is_uint16 (k_ d) ->
  Forall weight_fits (centroids_ d) -> Forall weight_fits (buffer_ d) ->
  centroids_weight_ d = uint64_wrap (sum_weights (centroids_ d)) ->
  buffered_weight_ d = uint64_wrap (sum_weights (buffer_ d)) ->
  is_uint64 weight ->
  Z.of_nat (stored d) + 1 < 2 ^ 32 ->
  min_ d <> None -> max_ d <> None ->
  serializable (append_buffer mean weight d).
Proof.
  intros Hk Hc Hb Hcw Hbw Hw Hfit Hmin Hmax.
  unfold append_buffer.
  match goal with
  | |- serializable (if _ then merge_buffered ?d1 else _) =>
      assert (Hd1 : serializable d1)
  end.
  { unfold serializable.
    cbn [k_ centroids_ buffer_ centroids_weight_ buffered_weight_ min_ max_].
    refine (conj Hk (conj Hc (conj _ (conj _ (conj Hcw (conj _ (conj _ _))))))).
    - apply Forall_app. split; [exact Hb|].
      constructor; [exact Hw | constructor].
    - unfold stored in Hfit. rewrite length_app. cbn [length]. lia.
    - rewrite sum_weights_app. cbn [sum_weights weight_]. unfold uint64_add.
      rewrite Hbw, uint64_wrap_add_l. f_equal. lia.
    - intros He. apply is_empty_true in He. cbn [buffer_] in He.
      destruct He as [_ He]. now destruct (buffer_ d).
    - intros _. now split. }
  destruct (_ =? _); [|exact Hd1].
  now apply merge_buffered_keeps_serializable.
Qed.

Lemma append_buffer_length (d : tdigest T) mean weight :
  (stored (append_buffer mean weight d) <= S (stored d))%nat.
Proof.
  unfold append_buffer.
  match goal with
  | |- (stored (if _ then merge_buffered ?d1 else _) <= _)%nat =>
      assert (Hd1 : stored d1 = S (stored d))
  end.
  { unfold stored. cbn [centroids_ buffer_]. rewrite length_app. cbn. lia. }
  destruct (_ =? _); [|lia].
  match goal with
  | |- (stored (merge_buffered ?d1) <= _)%nat =>
      pose proof (merge_buffered_length d1)
  end. lia.
Qed.

(** Every digest built from fresh ones by fewer than [2^32] units of
    weight is one the codec accepts. *)
Lemma built_serializable (d : tdigest T) n :
  built tune d n -> n < 2 ^ 32 ->
  serializable d /\ Z.of_nat (stored d) <= n.
Proof.
  induction 1 as [k d Hk Hnew | d n value Hd IH Hnan
                 | d n other m Hd IHd Ho IHo | d n Hd IH]; intros Hfit.
  - apply tdigest_new_inv in Hnew. subst d. split; [|cbn; lia].
    unfold serializable. cbn.
    refine (conj Hk (conj _ (conj _ (conj _ (conj eq_refl (conj eq_refl
              (conj _ _))))))); try constructor; try lia; auto.
  - destruct IH as [Hser Hlen]; [lia|].
    unfold update. rewrite Hnan. split.
    + destruct Hser as (Hk & Hc & Hb & Hl & Hcw & Hbw & Hempty & Hminmax).
      apply append_buffer_serializable;
        cbn [k_ centroids_ buffer_ centroids_weight_ buffered_weight_ min_ max_];
        try assumption.
      * unfold is_uint64. lia.
      * unfold stored in *. cbn [centroids_ buffer_]. lia.
      * apply min_seen_some.
      * apply max_seen_some.
    + match goal with
      | |- Z.of_nat (stored (append_buffer ?m ?w ?d1)) <= _ =>
          pose proof (append_buffer_length d1 m w) as Hl;
          change (stored d1) with (stored d) in Hl
      end. lia.
  - pose proof (built_nonneg tune _ _ Hd). pose proof (built_nonneg tune _ _ Ho).
    destruct IHd as [Hser Hlen]; [lia|].
    destruct IHo as [Hoser Holen]; [lia|].
    unfold merge.
    match goal with
    | |- serializable (merge_buffered ?d1) /\ _ =>
        assert (Hd1 : serializable d1 /\ stored d1 = (stored d + stored other)%nat)
    end.
    { destruct Hser as (Hk & Hc & Hb & Hl & Hcw & Hbw & Hempty & Hminmax).
      destruct Hoser as (_ & Hoc & Hob & _ & Hocw & Hobw & _ & _).
      split.
      - unfold serializable.
        cbn [k_ centroids_ buffer_ centroids_weight_ buffered_weight_ min_ max_].
        refine (conj Hk (conj Hc (conj _ (conj _ (conj Hcw (conj _
                  (conj _ Hminmax))))))).
        + repeat (apply Forall_app; split); assumption.
        + unfold stored in *. rewrite !length_app. lia.
        + rewrite !sum_weights_app. unfold get_total_weight, uint64_add.
          rewrite Hbw, Hocw, Hobw.
          rewrite (uint64_wrap_add_l (sum_weights (centroids_ other))).
          rewrite (uint64_wrap_add_r (sum_weights (centroids_ other))).
          rewrite uint64_wrap_add_l, uint64_wrap_add_r. reflexivity.
        + intros He. apply is_empty_true in He. cbn [centroids_ buffer_] in He.
          destruct He as [Hec Heb]. apply app_eq_nil in Heb.
          apply Hempty. apply is_empty_true. tauto.
      - unfold stored. cbn [centroids_ buffer_]. rewrite !length_app. lia. }
    destruct Hd1 as [Hd1 Hs1]. split.
    + now apply merge_buffered_keeps_serializable.
    + match goal with
      | |- Z.of_nat (stored (merge_buffered ?d1)) <= _ =>
          pose proof (merge_buffered_length d1)
      end. lia.
  - destruct IH as [Hser Hlen]; [lia|]. split.
    + now apply compress_serializable.
    + pose proof (compress_length d). lia.
Qed.

End BuiltDigests.

Section Extremes.
Variable tune : tuning.
Local Open Scope Z_scope.

Lemma Tmin_R (a x : R) : (Tmin a x <= a)%R /\ (Tmin a x <= x)%R
                         /\ ((a <= x)%R -> Tmin a x = a).
Proof.
  unfold Tmin. cbn [Tltb R_FloatType]. unfold Rltb.
  destruct (Rlt_dec x a); repeat split; intros; lra.
Qed.

Lemma Tmax_R (a x : R) : (a <= Tmax a x)%R /\ (x <= Tmax a x)%R
                         /\ ((x <= a)%R -> Tmax a x = a).
Proof.
  unfold Tmax. cbn [Tltb R_FloatType]. unfold Rltb.
  destruct (Rlt_dec a x); repeat split; intros; lra.
Qed.

(** A combined mean stays within any bounds that hold both means. *)
Lemma add_within (lo hi : R) (cur c : centroid R) :
  positive_weight cur -> positive_weight c ->
  weight_ cur + weight_ c < 2 ^ 64 ->
  (lo <= mean_ cur <= hi)%R -> (lo <= mean_ c <= hi)%R ->
  (lo <= mean_ (add cur c) <= hi)%R.
Proof.
  intros Hcur Hc Hfit Bcur Bc.
  destruct (Rle_dec (mean_ cur) (mean_ c)) as [Hle|Hgt].
  - destruct (add_between false cur c Hcur Hc Hfit Hle) as [H1 H2].
    cbn [mean_ordered] in H1, H2. lra.
  - assert (Hge : mean_ordered true cur c) by (cbn; lra).
    destruct (add_between true cur c Hcur Hc Hfit Hge) as [H1 H2].
    cbn [mean_ordered] in H1, H2. lra.
Qed.

Lemma merge_scan_within (lo hi : R) N n rest :
  forall (cur : centroid R) wsf ql,
    positive_weight cur -> Forall positive_weight rest ->
    weight_ cur + sum_weights rest < 2 ^ 64 ->
    (lo <= mean_ cur <= hi)%R ->
    Forall (fun c => (lo <= mean_ c <= hi)%R) rest ->
    Forall (fun c => (lo <= mean_ c <= hi)%R) (merge_scan N n cur wsf ql rest).
Proof.
  induction rest as [|c rest IH]; intros cur wsf ql Hcur Hrest Hfit Bcur Brest.
  - cbn. constructor; [exact Bcur | constructor].
  - apply Forall_cons_iff in Hrest. destruct Hrest as [Hc Hrest].
    apply Forall_cons_iff in Brest. destruct Brest as [Bc Brest].
    pose proof (sum_weights_nonneg rest Hrest) as Hnn.
    cbn [sum_weights] in Hfit. cbn [merge_scan].
    destruct (should_merge N n wsf ql cur c).
    + pose proof (add_weight_exact cur c Hcur Hc ltac:(lia)) as Hw.
      apply IH; try assumption.
      * unfold positive_weight in *. lia.
      * lia.
      * apply add_within; try assumption. lia.
    + constructor; [exact Bcur|].
      apply IH; try assumption. unfold positive_weight in *. lia.
Qed.

Lemma merge_pass_within (lo hi : R) delta n (l : list (centroid R)) :
  Forall positive_weight l -> sum_weights l < 2 ^ 64 ->
  Forall (fun c => (lo <= mean_ c <= hi)%R) l ->
  Forall (fun c => (lo <= mean_ c <= hi)%R) (merge_pass delta n l).
Proof.
  intros Hp Hfit Hb. destruct l as [|c0 rest]; [constructor|].
  apply Forall_cons_iff in Hp. destruct Hp as [Hc Hp].
  apply Forall_cons_iff in Hb. destruct Hb as [Bc Hb].
  unfold merge_pass. now apply merge_scan_within.
Qed.

(** In an ascending array the first mean is the least and the last
    mean the greatest. *)
Lemma ascending_first (c0 : centroid R) l :
  Sorted (mean_ordered false) (c0 :: l) ->
  Forall (fun c => (mean_ c0 <= mean_ c)%R) (c0 :: l).
Proof.
  intros Hs. apply Sorted_StronglySorted in Hs;
    [|intros a b c; apply mean_ordered_trans].
  apply StronglySorted_inv in Hs. destruct Hs as [_ Hall].
  constructor; [lra | exact Hall].
Qed.

Lemma ascending_last (l : list (centroid R)) cl rl :
  Sorted (mean_ordered false) l -> rev l = cl :: rl ->
  Forall (fun c => (mean_ c <= mean_ cl)%R) l.
Proof.
  intros Hs Hr. apply Sorted_StronglySorted in Hs;
    [|intros a b c; apply mean_ordered_trans].
  assert (Hl : l = rev rl ++ [cl]).
  { rewrite <- (rev_involutive l), Hr. reflexivity. }
  rewrite Hl in *. clear Hl Hr.
  induction (rev rl) as [|a l' IH]; cbn in *.
  - constructor; [lra | constructor].
  - apply StronglySorted_inv in Hs. destruct Hs as [Hs Ha].
    constructor.
    + apply Forall_app in Ha. destruct Ha as [_ Ha].
      apply Forall_cons_iff in Ha. destruct Ha as [Ha _]. exact Ha.
    + now apply IH.
Qed.

End Extremes.

Section DigestExtremes.
Variable tune : tuning.
Local Open Scope Z_scope.

Lemma merge_buffered_fields {T} `{FloatType T} (d : tdigest T) :
  buffer_ d <> [] ->
  buffer_ (merge_buffered d) = []
  /\ min_ (merge_buffered d)
     = match centroids_ (merge_buffered d) with
       | [] => min_ d
       | c :: _ => min_seen (min_ d) (mean_ c)
       end
  /\ max_ (merge_buffered d)
     = match rev (centroids_ (merge_buffered d)) with
       | [] => max_ d
       | c :: _ => max_seen (max_ d) (mean_ c)
       end.
Proof.
  intros Hne. unfold merge_buffered.
  destruct (buffer_ d); [contradiction|]. cbn. auto.
Qed.

Lemma min_seen_R (m : option R) (x : R) :
  exists mn, min_seen m x = Some mn /\ (mn <= x)%R
             /\ (forall a, m = Some a -> (mn <= a)%R /\ ((a <= x)%R -> mn = a)).
Proof.
  destruct m as [a|]; cbn.
  - exists (Tmin a x). destruct (Tmin_R a x) as (H1 & H2 & H3).
    refine (conj eq_refl (conj H2 _)). intros b [= <-]. now split.
  - exists x. refine (conj eq_refl (conj _ _)); [lra|]. intros a [=].
Qed.

Lemma max_seen_R (m : option R) (x : R) :
  exists mx, max_seen m x = Some mx /\ (x <= mx)%R
             /\ (forall a, m = Some a -> (a <= mx)%R /\ ((x <= a)%R -> mx = a)).
Proof.
  destruct m as [a|]; cbn.
  - exists (Tmax a x). destruct (Tmax_R a x) as (H1 & H2 & H3).
    refine (conj eq_refl (conj H2 _)). intros b [= <-]. now split.
  - exists x. refine (conj eq_refl (conj _ _)); [lra|]. intros a [=].
Qed.

Lemma merge_buffered_within (d : tdigest R) n :
  digest_ok d n -> n < 2 ^ 64 ->
  (buffer_ d = [] -> within_extremes d) ->
  within_extremes (merge_buffered d).
Proof.
  intros Hok Hfit Hdrained.
  destruct (buffer_ d) as [|b0 bs] eqn:Ebuf.
  - unfold merge_buffered. rewrite Ebuf. now apply Hdrained.
  - assert (Hne : buffer_ d <> []) by (rewrite Ebuf; discriminate).
    destruct (merge_buffered_fields d Hne) as (Hb & Hmin & Hmax).
    destruct (merge_buffered_ok d n Hok Hfit) as (Hs & _).
    intros c Hin. rewrite Hb, app_nil_r in Hin.
    destruct (centroids_ (merge_buffered d)) as [|c0 l] eqn:Ec; [contradiction|].
    destruct (rev (c0 :: l)) as [|cl rl] eqn:Er.
    { apply (f_equal (@length _)) in Er. rewrite length_rev in Er. discriminate. }
    destruct (min_seen_R (min_ d) (mean_ c0)) as (mn & Emn & Hmn & _).
    destruct (max_seen_R (max_ d) (mean_ cl)) as (mx & Emx & Hmx & _).
    exists mn, mx.
    pose proof (ascending_first c0 l Hs) as Hfirst.
    pose proof (ascending_last (c0 :: l) cl rl Hs Er) as Hlast.
    rewrite Forall_forall in Hfirst, Hlast.
    specialize (Hfirst c Hin). specialize (Hlast c Hin).
    repeat split; try congruence; lra.
Qed.

Lemma within_extremes_bounds (d : tdigest R) mn mx :
  within_extremes d -> min_ d = Some mn -> max_ d = Some mx ->
  Forall (fun c => (mn <= mean_ c <= mx)%R) (centroids_ d ++ buffer_ d).
Proof.
  intros Hw Hmn Hmx. apply Forall_forall. intros c Hin.
  destruct (Hw c Hin) as (mn' & mx' & E1 & E2 & Hb). congruence.
Qed.

Lemma merge_buffered_centroids_within (d : tdigest R) n lo hi :
  digest_ok d n -> n < 2 ^ 64 ->
  Forall (fun c => (lo <= mean_ c <= hi)%R) (centroids_ d ++ buffer_ d) ->
  Forall (fun c => (lo <= mean_ c <= hi)%R) (centroids_ (merge_buffered d)).
Proof.
  intros (Hs & Hc & Hb & Hn) Hfit Hall. unfold merge_buffered.
  destruct (buffer_ d) as [|b0 bs] eqn:Ebuf.
  - now rewrite app_nil_r in Hall.
  - rewrite <- Ebuf in *. clear Ebuf b0 bs. cbn [centroids_].
    apply Forall_app in Hall. destruct Hall as [Hac Hab].
    match goal with
    | |- Forall _ (if ?r then rev ?m else ?m) =>
        assert (Hm : Forall (fun c => (lo <= mean_ c <= hi)%R) m)
    end.
    { apply merge_pass_within.
      - apply stable_sort_Forall. apply Forall_app. now split.
      - rewrite stable_sort_sum, sum_weights_app. lia.
      - apply stable_sort_Forall. apply Forall_app. now split. }
    destruct (USE_ALTERNATING_SORT && reverse_merge_ d);
      [now apply Forall_rev | exact Hm].
Qed.

Lemma merge_buffered_keeps_extremes (d : tdigest R) n :
  digest_ok d n -> n < 2 ^ 64 -> within_extremes d ->
  min_ (merge_buffered d) = min_ d /\ max_ (merge_buffered d) = max_ d.
Proof.
  intros Hok Hfit Hw.
  destruct (buffer_ d) as [|b0 bs] eqn:Ebuf.
  - unfold merge_buffered. rewrite Ebuf. now split.
  - assert (Hne : buffer_ d <> []) by (rewrite Ebuf; discriminate).
    destruct (Hw b0) as (mn & mx & Emn & Emx & _).
    { apply in_or_app. right. rewrite Ebuf. now left. }
    pose proof (within_extremes_bounds d mn mx Hw Emn Emx) as Hall.
    pose proof (merge_buffered_centroids_within d n mn mx Hok Hfit Hall) as Hfin.
    destruct (merge_buffered_fields d Hne) as (_ & Hmin & Hmax).
    rewrite Hmin, Hmax. clear Hmin Hmax. split.
    + destruct (centroids_ (merge_buffered d)) as [|c0 l]; [reflexivity|].
      apply Forall_cons_iff in Hfin. destruct Hfin as [H0 _].
      rewrite Emn. cbn [min_seen]. f_equal. apply Tmin_R. lra.
    + apply Forall_rev in Hfin.
      destruct (rev (centroids_ (merge_buffered d))) as [|cl rl]; [reflexivity|].
      apply Forall_cons_iff in Hfin. destruct Hfin as [H0 _].
      rewrite Emx. cbn [max_seen]. f_equal. apply Tmax_R. lra.
Qed.

Lemma second_pass_within (d : tdigest R) n :
  digest_ok d n -> n < 2 ^ 64 -> within_extremes d ->
  within_extremes (second_pass d).
Proof.
  intros (Hs & Hc & Hb & Hn) Hfit Hw. unfold second_pass.
  destruct USE_TWO_LEVEL_COMPRESSION; [|exact Hw].
  intros c Hin. cbn [centroids_ buffer_ min_ max_] in *.
  destruct (centroids_ d ++ buffer_ d) as [|x xs] eqn:Eall.
  - apply app_eq_nil in Eall. destruct Eall as [Ec Eb].
    rewrite Ec, Eb in Hin. cbn in Hin. contradiction.
  - destruct (Hw x) as (mn & mx & Emn & Emx & _); [rewrite Eall; now left|].
    pose proof (within_extremes_bounds d mn mx Hw Emn Emx) as Hall.
    apply Forall_app in Hall. destruct Hall as [Hac Hab].
    pose proof (sum_weights_nonneg _ Hb) as Hbn.
    pose proof (merge_pass_within mn mx (k_ d) (centroids_weight_ d)
                  (centroids_ d) Hc ltac:(lia) Hac) as Hm.
    exists mn, mx. refine (conj Emn (conj Emx _)).
    apply in_app_or in Hin. destruct Hin as [Hin|Hin].
    + rewrite Forall_forall in Hm. now apply Hm.
    + rewrite Forall_forall in Hab. now apply Hab.
Qed.

Lemma compress_within (d : tdigest R) n :
  digest_ok d n -> n < 2 ^ 64 -> within_extremes d ->
  within_extremes (compress d)
  /\ min_ (compress d) = min_ d /\ max_ (compress d) = max_ d.
Proof.
  intros Hok Hfit Hw. unfold compress.
  destruct (buffer_ d) as [|b0 bs] eqn:Ebuf; [now auto|].
  pose proof (merge_buffered_ok d n Hok Hfit) as Hok1.
  pose proof (merge_buffered_within d n Hok Hfit (fun _ => Hw)) as Hw1.
  pose proof (merge_buffered_keeps_extremes d n Hok Hfit Hw) as [Hmin Hmax].
  split; [now apply (second_pass_within _ n)|].
  unfold second_pass. destruct USE_TWO_LEVEL_COMPRESSION; now split.
Qed.

Lemma append_buffer_within (d : tdigest R) n value :
  digest_ok d n -> n + 1 < 2 ^ 64 ->
  (forall c, In c (centroids_ d ++ buffer_ d ++ [Centroid value 1]) ->
     exists mn mx, min_ d = Some mn /\ max_ d = Some mx
                   /\ (mn <= mean_ c <= mx)%R) ->
  within_extremes (append_buffer value 1 d).
Proof.
  intros Hok Hfit Hw. pose proof Hok as (Hs & Hc & Hb & Hn).
  unfold append_buffer.
  match goal with
  | |- within_extremes (if _ then merge_buffered ?d1 else _) =>
      assert (Hd1 : digest_ok d1 (n + 1) /\ within_extremes d1)
  end.
  { split.
    - unfold digest_ok. cbn [centroids_ buffer_].
      refine (conj Hs (conj Hc (conj _ _))).
      + apply Forall_app. split; [exact Hb|].
        constructor; [unfold positive_weight; cbn; lia | constructor].
      + rewrite sum_weights_app. cbn. lia.
    - exact Hw. }
  destruct Hd1 as [Hok1 Hw1].
  destruct (_ =? _); [|exact Hw1].
  apply (merge_buffered_within _ (n + 1)); auto.
Qed.

Lemma update_within (d : tdigest R) n value :
  digest_ok d n -> n + 1 < 2 ^ 64 -> within_extremes d ->
  within_extremes (update value d).
Proof.
  intros Hok Hfit Hw. unfold update. cbn [Tisnan R_FloatType].
  apply (append_buffer_within _ n); [exact Hok | exact Hfit |].
  cbn [centroids_ buffer_ min_ max_].
  destruct (min_seen_R (min_ d) value) as (mn & Emn & Hmn & Hmn').
  destruct (max_seen_R (max_ d) value) as (mx & Emx & Hmx & Hmx').
  intros c Hin. exists mn, mx. refine (conj Emn (conj Emx _)).
  rewrite app_assoc in Hin. apply in_app_or in Hin. destruct Hin as [Hin|Hin].
  - destruct (Hw c Hin) as (a & b & Ea & Eb & Hab).
    destruct (Hmn' a Ea) as [H1 _]. destruct (Hmx' b Eb) as [H2 _]. lra.
  - destruct Hin as [<-|[]]. cbn. lra.
Qed.

Lemma merge_within (d other : tdigest R) n m :
  digest_ok d n -> digest_ok other m -> n + m < 2 ^ 64 ->
  within_extremes d -> within_extremes (merge other d).
Proof.
  intros Hok Hoko Hfit Hw. unfold merge.
  match goal with
  | |- within_extremes (merge_buffered ?d1) =>
      assert (Hok1 : digest_ok d1 (n + m))
  end.
  { destruct Hok as (Hs & Hc & Hb & Hn). destruct Hoko as (_ & Hoc & Hob & Hm).
    unfold digest_ok. cbn [centroids_ buffer_].
    refine (conj Hs (conj Hc (conj _ _))).
    - repeat (apply Forall_app; split); assumption.
    - rewrite !sum_weights_app. lia. }
  apply (merge_buffered_within _ (n + m)); [exact Hok1 | exact Hfit |].
  cbn [buffer_]. intros Hnil.
  apply app_eq_nil in Hnil. destruct Hnil as [Hb Ho].
  intros c Hin. cbn [centroids_ buffer_ min_ max_] in *.
  rewrite Hb, Ho in Hin. apply Hw. now rewrite Hb.
Qed.

(** In exact arithmetic, compressing a digest that [update], [merge]
    and [compress] have built leaves its [min] and [max] as they are. *)
Lemma built_within (d : tdigest R) n :
  built tune d n -> n < 2 ^ 64 -> within_extremes d.
Proof.
  induction 1 as [k d Hk Hnew | d n value Hd IH Hnan
                 | d n other m Hd IHd Ho IHo | d n Hd IH]; intros Hfit.
  - apply tdigest_new_inv in Hnew. subst d. intros c [].
  - apply (update_within _ n); [apply (built_ok tune); [exact Hd|lia]
                               | exact Hfit | apply IH; lia].
  - pose proof (built_nonneg tune _ _ Hd). pose proof (built_nonneg tune _ _ Ho).
    apply (merge_within _ _ n m);
      [apply (built_ok tune); [exact Hd|lia]
      | apply (built_ok tune); [exact Ho|lia] | exact Hfit | apply IHd; lia].
  - apply (compress_within _ n); [now apply (built_ok tune) | exact Hfit
                                 | now apply IH].
Qed.

Lemma compress_keeps_extremes (d : tdigest R) n :
  built tune d n -> n < 2 ^ 64 ->
  get_min_value (compress d) = get_min_value d
  /\ get_max_value (compress d) = get_max_value d.
Proof.
  intros Hb Hfit. unfold get_min_value, get_max_value.
  destruct (compress_within d n) as (_ & Hmin & Hmax);
    [now apply (built_ok tune) | exact Hfit | now apply (built_within d n)
    | now split].
Qed.
End DigestExtremes.

(** *** Concrete runs *)

(** [add] on concrete centroids: the mean moves by a third of the way. *)
Example add_two_centroids :
  add (Centroid 1%R 2) (Centroid 4%R 1) = Centroid 2%R 3.
Proof.
  unfold add, add_mean, add_weight, add_divisor. cbn.
  change (uint64_add 2 1) with 3%Z. f_equal. lra.
Qed.

(** The [uint64_t] sum of the weights wraps. *)
Example add_wraps_at_64_bits :
  weight_ (add (Centroid 0%R (2 ^ 63)) (Centroid 1%R (2 ^ 63))) = 0%Z.
Proof. reflexivity. Qed.

(** The scale function at a few points. *)
Example normalizer_at_equal_arguments :
  scale_function.normalizer 100 100 = (100 / 24)%R.
Proof.
  unfold scale_function.normalizer, scale_function.z.
  replace (100 / 100)%R with 1%R by lra. rewrite ln_1. f_equal. lra.
Qed.

Example q_at_zero (N : R) : scale_function.q 0 N = (1 / 2)%R.
Proof.
  unfold scale_function.q. replace (0 / N)%R with 0%R by (unfold Rdiv; ring).
  rewrite exp_0. lra.
Qed.

Example k_at_one_half (N : R) : scale_function.k (1 / 2) N = 0%R.
Proof.
  rewrite k_clamp, clamp_inside by lra.
  replace (1 / 2 / (1 - 1 / 2))%R with 1%R by lra. rewrite ln_1. ring.
Qed.

(** The sort is stable. *)
Example stable_sort_keeps_ties :
  stable_sort Nat.ltb [3; 1; 2; 1]%nat = [1; 1; 2; 3]%nat
  /\ stable_sort (fun a b => Nat.ltb (fst a) (fst b))
       [(2, 0); (1, 0); (2, 1); (1, 1)]%nat
     = [(1, 0); (1, 1); (2, 0); (2, 1)]%nat.
Proof. split; reflexivity. Qed.

(** Scenario S5 of the spec: one value, written and read back. *)
Example serialize_one_value :
  let d : tdigest word64 :=
    update (word64_of_Z 42)
      (make_tdigest reference_tuning false 100 None None [] 0) in
  map byte.unsigned (fst (serialize 0 d))
  = [2; 1; 20; 2; 100; 0; 0; 0;
     1; 0; 0; 0; 0; 0; 0; 0;
     1; 0; 0; 0; 0; 0; 0; 0;
     42; 0; 0; 0; 0; 0; 0; 0;
     42; 0; 0; 0; 0; 0; 0; 0;
     42; 0; 0; 0; 0; 0; 0; 0;
     1; 0; 0; 0; 0; 0; 0; 0]%Z.
Proof. lazy. reflexivity. Qed.

Example deserialize_one_value :
  let d : tdigest word64 :=
    update (word64_of_Z 42)
      (make_tdigest reference_tuning false 100 None None [] 0) in
  deserialize reference_tuning (fun _ => Err FormatError) (fst (serialize 0 d))
  = Ok (make_tdigest reference_tuning true 100
          (Some (word64_of_Z 42)) (Some (word64_of_Z 42))
          [Centroid (word64_of_Z 42) 1] 1).
Proof. lazy. reflexivity. Qed.

(** A wrong serial version and a truncated array are format errors. *)
Example deserialize_rejects_version :
  deserialize (T := word64) reference_tuning (fun _ => Err FormatError)
    (map byte.of_Z [1; 2; 20; 1; 100; 0; 0; 0]%Z)
  = Err FormatError.
Proof. lazy. reflexivity. Qed.

Example deserialize_rejects_truncation :
  deserialize (T := word64) reference_tuning (fun _ => Err FormatError)
    (map byte.of_Z [2; 1; 20; 0; 100; 0; 0; 0; 1; 0]%Z)
  = Err FormatError.
Proof. lazy. reflexivity. Qed.

(* ================================================================= *)
(** ** Further properties of the header's code *)
(* ================================================================= *)

Section ScaleFunctionShape.
Import scale_function.
Local Open Scope R_scope.





(** X5: the round trip in the other direction: [k(q(k0, N), N) = k0]
    whenever the rank [q(k0, N)] falls in the interval that [k] does
    not clamp. *)
Theorem k_q_round_trip (k0 N : R) :
  N <> 0 -> 1e-15 <= q k0 N <= 1 - 1e-15 -> k (q k0 N) N = k0.
Proof.
  intros HN Hr. rewrite k_clamp, clamp_inside by exact Hr.
  unfold q. pose proof (exp_pos (k0 / N)) as Hw. set (w := exp (k0 / N)) in *.
  replace (w / (1 + w) / (1 - w / (1 + w))) with w by (field; lra).
  unfold w. rewrite ln_exp. field. exact HN.
Qed.

Lemma q_at_index_zero N : q 0 N = 1 / 2.
Proof.
  unfold q. replace (0 / N) with 0 by (unfold Rdiv; ring).
  rewrite exp_0. lra.
Qed.

Lemma k_q_round_trip_witness : k (q 0 1) 1 = 0.
Proof. apply (k_q_round_trip 0 1); [lra|]. rewrite q_at_index_zero. lra. Defined.



(** X9: for a normalizer [N > 0] the weight cap [max] is symmetric
    about the rank 1/2, vanishes at the ranks 0 and 1, and on [[0,1]]
    lies between 0 and its value [1/(4N)] at 1/2. *)
Theorem max_cap_bounds (x N : R) :
  0 < N -> 0 <= x <= 1 ->
  0 <= max x N <= 1 / (4 * N)
  /\ max (1 / 2) N = 1 / (4 * N)
  /\ max (1 - x) N = max x N
  /\ max 0 N = 0 /\ max 1 N = 0.
Proof.
  intros HN [H0 H1]. unfold max.
  pose proof (Rinv_0_lt_compat N HN) as Hi.
  assert (Hq : x * (1 - x) <= 1 / 4).
  { pose proof (Rle_0_sqr (x - 1 / 2)) as Hs. unfold Rsqr in Hs. lra. }
  assert (Hhalf : 1 / 2 * (1 - 1 / 2) / N = 1 / (4 * N)) by (field; lra).
  refine (conj (conj _ _) (conj Hhalf (conj _ (conj _ _)))).
  - unfold Rdiv. apply Rmult_le_pos; [nra | lra].
  - rewrite <- Hhalf. unfold Rdiv at 1 3. apply Rmult_le_compat_r; lra.
  - unfold Rdiv. ring.
  - unfold Rdiv. ring.
  - unfold Rdiv. ring.
Qed.

Lemma max_cap_bounds_witness :
  0 <= max 0.25 3 <= 1 / (4 * 3).
Proof. apply (max_cap_bounds 0.25 3); lra. Defined.

(** X10: for a normalizer [N > 0] the cap [max] is negative at every
    rank outside [[0,1]]. *)
Theorem max_negative_outside (x N : R) :
  0 < N -> x < 0 \/ 1 < x -> max x N < 0.
Proof.
  intros HN Hx. unfold max.
  pose proof (Rinv_0_lt_compat N HN) as Hi. unfold Rdiv.
  assert (x * (1 - x) < 0) by (destruct Hx; nra). nra.
Qed.

Lemma max_negative_outside_witness : max 2 3 < 0.
Proof. apply (max_negative_outside 2 3); [lra | right; lra]. Defined.

(** X11: the cap is the slope of the rank: [max(q(k, N), N)] is the
    derivative of [q(., N)] at [k], which is what makes cluster sizes
    proportional to [q * (1 - q)]. *)
Theorem max_is_slope_of_q (k0 N : R) :
  N <> 0 ->
  derivable_pt_lim (fun x => q x N) k0 (max (q k0 N) N).
Proof.
  intros HN.
  pose proof (exp_pos (k0 / N)) as Hw.
  set (g := (id * fct_cte (/ N))%F).
  assert (Hg : derivable_pt_lim g k0 (/ N)).
  { replace (/ N) with (1 * fct_cte (/ N) k0 + id k0 * 0)
      by (unfold fct_cte, id; ring).
    apply derivable_pt_lim_mult;
      [apply derivable_pt_lim_id | apply derivable_pt_lim_const]. }
  assert (He : derivable_pt_lim (comp exp g) k0 (exp (g k0) * / N)).
  { apply derivable_pt_lim_comp; [exact Hg | apply derivable_pt_lim_exp]. }
  assert (Hd : derivable_pt_lim (fct_cte 1 + comp exp g)%F k0
                 (0 + exp (g k0) * / N)).
  { apply derivable_pt_lim_plus; [apply derivable_pt_lim_const | exact He]. }
  assert (Hgk : g k0 = k0 / N) by reflexivity.
  change (fun x => q x N) with (comp exp g / (fct_cte 1 + comp exp g))%F.
  replace (max (q k0 N) N)
    with ((exp (g k0) * / N * (fct_cte 1 + comp exp g)%F k0
           - (0 + exp (g k0) * / N) * comp exp g k0)
          / Rsqr ((fct_cte 1 + comp exp g)%F k0)).
  - apply derivable_pt_lim_div; [exact He | exact Hd |].
    unfold plus_fct, fct_cte, comp. rewrite Hgk. lra.
  - unfold max, q, plus_fct, fct_cte, comp, Rsqr. rewrite Hgk.
    set (w := exp (k0 / N)) in *. field. repeat split; try exact HN; lra.
Qed.

Lemma max_is_slope_of_q_witness :
  derivable_pt_lim (fun x => q x 1) 0 (max (q 0 1) 1).
Proof. apply (max_is_slope_of_q 0 1). lra. Defined.

(** X12: [z] depends on its arguments through their ratio only, and
    the normalizer scales with them:
    [normalizer(c*delta, c*n) = c * normalizer(delta, n)]. *)
Theorem z_depends_on_ratio (c delta n : R) :
  c <> 0 -> delta <> 0 ->
  z (c * delta) (c * n) = z delta n
  /\ normalizer (c * delta) (c * n) = c * normalizer delta n.
Proof.
  intros Hc Hd.
  assert (Hz : z (c * delta) (c * n) = z delta n).
  { unfold z. replace (c * n / (c * delta)) with (n / delta) by (field; auto).
    reflexivity. }
  split; [exact Hz|]. unfold normalizer. rewrite Hz. unfold Rdiv. ring.
Qed.

Lemma z_depends_on_ratio_witness :
  z (2 * 100) (2 * 1000) = z 100 1000
  /\ normalizer (2 * 100) (2 * 1000) = 2 * normalizer 100 1000.
Proof. apply (z_depends_on_ratio 2 100 1000); lra. Defined.

Lemma z_at_least_24 (delta n : R) : 0 < delta -> delta <= n -> 24 <= z delta n.
Proof.
  intros Hd Hn.
  assert (Hr : 1 <= n / delta).
  { apply Rmult_le_reg_r with (r := delta); [exact Hd|].
    unfold Rdiv. rewrite Rmult_assoc, Rinv_l by lra. lra. }
  assert (Hl : 0 <= ln (n / delta)).
  { rewrite <- ln_1. apply ln_mono; lra. }
  unfold z. lra.
Qed.

(** X13: once the total weight has reached the compression,
    [n >= delta > 0], the divisor [z] is at least 24 and the
    normalizer lies in [(0, delta/24]]. *)
Theorem normalizer_positive (delta n : R) :
  0 < delta -> delta <= n ->
  24 <= z delta n /\ 0 < normalizer delta n <= delta / 24.
Proof.
  intros Hd Hn. pose proof (z_at_least_24 delta n Hd Hn) as Hz.
  split; [exact Hz|]. unfold normalizer. split.
  - apply Rdiv_lt_0_compat; lra.
  - unfold Rdiv. apply Rmult_le_compat_l; [lra|].
    apply Rinv_le_contravar; lra.
Qed.

Lemma normalizer_positive_witness :
  24 <= z 100 1000 /\ 0 < normalizer 100 1000 <= 100 / 24.
Proof. apply (normalizer_positive 100 1000); lra. Defined.

Lemma exp_6_bound : exp 6 < 1000.
Proof.
  pose proof exp_le_3 as H3. pose proof (exp_pos 1) as Hp.
  replace 6 with (1 + 1 + 1 + 1 + 1 + 1) by ring.
  rewrite !exp_plus.
  set (e := exp 1) in *.
  assert (e * e <= 9) by nra.
  assert (0 < e * e) by nra.
  assert (e * e * e <= 27) by nra.
  assert (0 < e * e * e) by nra.
  assert (e * e * e * e <= 81) by nra.
  assert (0 < e * e * e * e) by nra.
  assert (e * e * e * e * e <= 243) by nra.
  assert (0 < e * e * e * e * e) by nra.
  assert (e * e * e * e * e * e <= 729) by nra.
  lra.
Qed.

(** X14: while the total weight is small against the compression,
    [n * exp(6) < delta], the divisor [z] and with it the normalizer
    are negative. *)
Theorem normalizer_negative (delta n : R) :
  0 < delta -> 0 < n -> n * exp 6 < delta ->
  z delta n < 0 /\ normalizer delta n < 0.
Proof.
  intros Hd Hn Hsmall.
  assert (Hr : 0 < n / delta) by (apply Rdiv_lt_0_compat; assumption).
  pose proof (exp_pos 6) as He.
  assert (Hlt : n / delta < / exp 6).
  { apply Rmult_lt_reg_r with (r := delta * exp 6); [nra|].
    replace (n / delta * (delta * exp 6)) with (n * exp 6) by (field; lra).
    replace (/ exp 6 * (delta * exp 6)) with delta by (field; lra).
    exact Hsmall. }
  assert (Hl : ln (n / delta) < - (6)).
  { assert (E : - (6) = ln (/ exp 6)) by (rewrite ln_Rinv, ln_exp; lra).
    rewrite E. now apply ln_increasing. }
  assert (Hz : z delta n < 0) by (unfold z; lra).
  split; [exact Hz|]. unfold normalizer.
  pose proof (Rinv_lt_0_compat _ Hz) as Hi. unfold Rdiv. nra.
Qed.

Lemma normalizer_negative_witness :
  z 1000 1 < 0 /\ normalizer 1000 1 < 0.
Proof.
  apply (normalizer_negative 1000 1); try lra.
  pose proof exp_6_bound. lra.
Defined.

(** X15: past [n >= delta > 0], more weight means a larger [z] and a
    smaller normalizer. *)
Theorem normalizer_shrinks_with_weight (delta n1 n2 : R) :
  0 < delta -> delta <= n1 -> n1 <= n2 ->
  z delta n1 <= z delta n2 /\ normalizer delta n2 <= normalizer delta n1.
Proof.
  intros Hd H1 H12.
  pose proof (z_at_least_24 delta n1 Hd H1) as Hz1.
  assert (Hl : ln (n1 / delta) <= ln (n2 / delta)).
  { apply ln_mono.
    - apply Rdiv_lt_0_compat; lra.
    - unfold Rdiv. apply Rmult_le_compat_r; [|exact H12].
      left. now apply Rinv_0_lt_compat. }
  assert (Hz : z delta n1 <= z delta n2) by (unfold z; lra).
  split; [exact Hz|]. unfold normalizer, Rdiv.
  apply Rmult_le_compat_l; [lra|]. apply Rinv_le_contravar; lra.
Qed.

Lemma normalizer_shrinks_with_weight_witness :
  z 100 100 <= z 100 1000 /\ normalizer 100 1000 <= normalizer 100 100.
Proof. apply (normalizer_shrinks_with_weight 100 100 1000); lra. Defined.

(** X16: [limit] always answers [f] at some point: a point of
    [[low, high]], and [x] itself when [x] is in it, if the bounds are
    in order; one of the two bounds, never [x], if they are crossed. *)
Theorem limit_stays_in_bounds (f : R -> R) (x low high : R) :
  exists y, limit f x low high = f y
            /\ (low <= high -> low <= y <= high /\ (low <= x <= high -> y = x))
            /\ (high < low -> y = low \/ y = high).
Proof.
  unfold limit. destruct (Rlt_dec x low) as [Hl|Hl].
  - exists low. refine (conj eq_refl (conj _ _)).
    + intros Hlh. split; [lra|]. intros Hx. lra.
    + intros _. now left.
  - destruct (Rgt_dec x high) as [Hh|Hh]; unfold Rgt in Hh.
    + exists high. refine (conj eq_refl (conj _ _)).
      * intros Hlh. split; [lra|]. intros Hx. lra.
      * intros _. now right.
    + exists x. refine (conj eq_refl (conj _ _)).
      * intros Hlh. split; [lra|]. reflexivity.
      * intros Hlh. lra.
Qed.

End ScaleFunctionShape.

Section CentroidAlgebra.
Local Open Scope Z_scope.

(** X17: [centroid_cmp] is a strict weak order, as a sort comparator
    must be: irreflexive, asymmetric, transitive, with a transitive
    incomparability that holds whenever two means are equal (the
    weights play no part). *)
Theorem centroid_cmp_strict_weak_order (a b c : centroid R) :
  centroid_cmp a a = false
  /\ (centroid_cmp a b = true -> centroid_cmp b a = false)
  /\ (centroid_cmp a b = true -> centroid_cmp b c = true ->
      centroid_cmp a c = true)
  /\ (centroid_cmp a b = false -> centroid_cmp b a = false ->
      centroid_cmp b c = false -> centroid_cmp c b = false ->
      centroid_cmp a c = false /\ centroid_cmp c a = false)
  /\ (mean_ a = mean_ b ->
      centroid_cmp a b = false /\ centroid_cmp b a = false).
Proof.
  unfold centroid_cmp, get_mean. cbn [Tltb R_FloatType]. unfold Rltb.
  repeat match goal with
         | |- context [Rlt_dec ?x ?y] => destruct (Rlt_dec x y)
         end;
    repeat split; intros; try discriminate; try reflexivity; try lra.
Qed.

Lemma add_mean_exact (a b : centroid R) :
  0 <= weight_ a -> 0 <= weight_ b -> weight_ a + weight_ b < 2 ^ 64 ->
  weight_ (add a b) = weight_ a + weight_ b
  /\ mean_ (add a b)
     = (mean_ a + (mean_ b - mean_ a) * IZR (weight_ b)
                  / (IZR (weight_ a) + IZR (weight_ b)))%R.
Proof.
  intros Ha Hb Hfit. cbn. rewrite uint64_add_exact by lia.
  rewrite plus_IZR. now split.
Qed.

Lemma add_moment_exact (a b : centroid R) :
  0 <= weight_ a -> 0 <= weight_ b ->
  0 < weight_ a + weight_ b < 2 ^ 64 ->
  weight_ (add a b) = weight_ a + weight_ b
  /\ moment (add a b) = (moment a + moment b)%R.
Proof.
  intros Ha Hb [Hpos Hfit].
  destruct (add_mean_exact a b Ha Hb Hfit) as [Hw Hm].
  split; [exact Hw|]. unfold moment. rewrite Hw, Hm, plus_IZR.
  assert (Hd : (IZR (weight_ a) + IZR (weight_ b))%R <> 0%R).
  { rewrite <- plus_IZR. apply not_0_IZR. lia. }
  field. exact Hd.
Qed.

(** X18: [add] conserves weight and first moment: while the combined
    weight is positive and fits 64 bits, the result's weight is the
    sum of the weights and its weight times mean is the sum of the
    two weight-times-mean products. *)
Theorem add_conserves_moment (a b : centroid R) :
  0 <= weight_ a -> 0 <= weight_ b ->
  0 < weight_ a + weight_ b < 2 ^ 64 ->
  weight_ (add a b) = weight_ a + weight_ b
  /\ moment (add a b) = (moment a + moment b)%R.
Proof.
  intros Ha Hb [Hpos Hfit].
  destruct (add_mean_exact a b Ha Hb Hfit) as [Hw Hm].
  split; [exact Hw|]. unfold moment. rewrite Hw, Hm, plus_IZR.
  assert (Hd : (IZR (weight_ a) + IZR (weight_ b))%R <> 0%R).
  { rewrite <- plus_IZR. apply not_0_IZR. lia. }
  field. exact Hd.
Qed.

Lemma add_conserves_moment_witness :
  weight_ (add (Centroid 1%R 2) (Centroid 4%R 1)) = 2 + 1
  /\ moment (add (Centroid 1%R 2) (Centroid 4%R 1))
     = (moment (Centroid 1%R 2) + moment (Centroid 4%R 1))%R.
Proof.
  apply (add_conserves_moment (Centroid 1%R 2) (Centroid 4%R 1)); cbn; lia.
Defined.

(** X19: [add] does not depend on which centroid absorbs the other:
    [a.add(b)] and [b.add(a)] are the same centroid, while the
    combined weight is positive and fits 64 bits. *)
Theorem add_commutes (a b : centroid R) :
  0 <= weight_ a -> 0 <= weight_ b ->
  0 < weight_ a + weight_ b < 2 ^ 64 ->
  add a b = add b a.
Proof.
  intros Ha Hb [Hpos Hfit].
  destruct (add_mean_exact a b Ha Hb Hfit) as [Hw Hm].
  destruct (add_mean_exact b a Hb Ha) as [Hw' Hm']; [lia|].
  destruct (add a b) as [m w], (add b a) as [m' w']. cbn in *. subst.
  assert (Hd : (IZR (weight_ a) + IZR (weight_ b))%R <> 0%R).
  { rewrite <- plus_IZR. apply not_0_IZR. lia. }
  f_equal; [field; lra | lia].
Qed.

Lemma add_commutes_witness :
  add (Centroid 1%R 2) (Centroid 4%R 1) = add (Centroid 4%R 1) (Centroid 1%R 2).
Proof.
  apply (add_commutes (Centroid 1%R 2) (Centroid 4%R 1)); cbn; lia.
Defined.

(** X20: [add] is associative: absorbing [b] then [c] gives the same
    centroid as absorbing the combination of [b] and [c], while the
    partial weights are positive and the total fits 64 bits. *)
Theorem add_associative (a b c : centroid R) :
  0 <= weight_ a -> 0 <= weight_ b -> 0 <= weight_ c ->
  0 < weight_ a + weight_ b -> 0 < weight_ b + weight_ c ->
  weight_ a + weight_ b + weight_ c < 2 ^ 64 ->
  add (add a b) c = add a (add b c).
Proof.
  intros Ha Hb Hc Hab Hbc Hfit.
  destruct (add_mean_exact a b Ha Hb) as [Wab Mab]; [lia|].
  destruct (add_mean_exact b c Hb Hc) as [Wbc Mbc]; [lia|].
  destruct (add_mean_exact (add a b) c) as [W1 M1]; [lia | exact Hc | lia |].
  destruct (add_mean_exact a (add b c)) as [W2 M2]; [exact Ha | lia | lia |].
  rewrite Wab, Mab in M1. rewrite Wab in W1.
  rewrite Wbc, Mbc in M2. rewrite Wbc in W2.
  rewrite !plus_IZR in *.
  destruct (add (add a b) c) as [m1 w1], (add a (add b c)) as [m2 w2].
  cbn [mean_ weight_] in *. subst.
  assert (Dab : (IZR (weight_ a) + IZR (weight_ b))%R <> 0%R).
  { rewrite <- plus_IZR. apply not_0_IZR. lia. }
  assert (Dbc : (IZR (weight_ b) + IZR (weight_ c))%R <> 0%R).
  { rewrite <- plus_IZR. apply not_0_IZR. lia. }
  assert (Dall : (IZR (weight_ a) + IZR (weight_ b) + IZR (weight_ c))%R <> 0%R).
  { rewrite <- !plus_IZR. apply not_0_IZR. lia. }
  f_equal; [|lia]. field. repeat split; try assumption.
  replace (IZR (weight_ a) + (IZR (weight_ b) + IZR (weight_ c)))%R
    with (IZR (weight_ a) + IZR (weight_ b) + IZR (weight_ c))%R by ring.
  exact Dall.
Qed.

Lemma add_associative_witness :
  add (add (Centroid 1%R 2) (Centroid 4%R 1)) (Centroid 7%R 3)
  = add (Centroid 1%R 2) (add (Centroid 4%R 1) (Centroid 7%R 3)).
Proof.
  apply (add_associative (Centroid 1%R 2) (Centroid 4%R 1) (Centroid 7%R 3));
    cbn; lia.
Defined.

(** X21: the mean after [add] lies between the two means it
    combines. *)
Theorem add_mean_between (a b : centroid R) :
  0 <= weight_ a -> 0 <= weight_ b ->
  0 < weight_ a + weight_ b < 2 ^ 64 ->
  (Rmin (mean_ a) (mean_ b) <= mean_ (add a b) <= Rmax (mean_ a) (mean_ b))%R.
Proof.
  intros Ha Hb [Hpos Hfit].
  destruct (add_mean_exact a b Ha Hb Hfit) as [_ Hm]. rewrite Hm.
  assert (Hwa : (0 <= IZR (weight_ a))%R) by (apply IZR_le; lia).
  assert (Hwb : (0 <= IZR (weight_ b))%R) by (apply IZR_le; lia).
  assert (Hd : (0 < IZR (weight_ a) + IZR (weight_ b))%R).
  { rewrite <- plus_IZR. apply IZR_lt. lia. }
  set (t := (IZR (weight_ b) / (IZR (weight_ a) + IZR (weight_ b)))%R).
  assert (Ht : (0 <= t <= 1)%R).
  { unfold t. split.
    - apply Rmult_le_pos; [exact Hwb|]. left. now apply Rinv_0_lt_compat.
    - apply Rmult_le_reg_r with (r := (IZR (weight_ a) + IZR (weight_ b))%R);
        [exact Hd|].
      unfold Rdiv. rewrite Rmult_assoc, Rinv_l by lra. lra. }
  replace (mean_ a + (mean_ b - mean_ a) * IZR (weight_ b)
                     / (IZR (weight_ a) + IZR (weight_ b)))%R
    with (mean_ a + (mean_ b - mean_ a) * t)%R by (unfold t, Rdiv; ring).
  unfold Rmin, Rmax. destruct (Rle_dec (mean_ a) (mean_ b)); split; nra.
Qed.

Lemma add_mean_between_witness :
  (Rmin 1 4 <= mean_ (add (Centroid 1%R 2) (Centroid 4%R 1)) <= Rmax 1 4)%R.
Proof.
  apply (add_mean_between (Centroid 1%R 2) (Centroid 4%R 1)); cbn; lia.
Defined.

(** X22: the weight after [add] is always a 64-bit value; it is the
    true sum when that fits, the sum less [2^64] when it does not, and
    a wrap shows as a weight smaller than the one before. *)
Theorem add_weight_overflow {T : Type} `{FloatType T} (a b : centroid T) :
  is_uint64 (weight_ a) -> is_uint64 (weight_ b) ->
  is_uint64 (weight_ (add a b))
  /\ (weight_ a + weight_ b < 2 ^ 64 ->
      weight_ (add a b) = weight_ a + weight_ b)
  /\ (2 ^ 64 <= weight_ a + weight_ b ->
      weight_ (add a b) = weight_ a + weight_ b - 2 ^ 64)
  /\ (2 ^ 64 <= weight_ a + weight_ b <-> weight_ (add a b) < weight_ a).
Proof.
  unfold is_uint64. intros Ha Hb. cbn [add add_mean add_weight weight_].
  unfold uint64_add, uint64_wrap.
  assert (Hsmall : weight_ a + weight_ b < 2 ^ 64 ->
                   (weight_ a + weight_ b) mod 2 ^ 64 = weight_ a + weight_ b).
  { intros Hfit. apply Z.mod_small. lia. }
  assert (Hbig : 2 ^ 64 <= weight_ a + weight_ b ->
                 (weight_ a + weight_ b) mod 2 ^ 64
                 = weight_ a + weight_ b - 2 ^ 64).
  { intros Hov.
    replace (weight_ a + weight_ b)
      with (weight_ a + weight_ b - 2 ^ 64 + 1 * 2 ^ 64) at 1 by ring.
    rewrite Z.mod_add by lia. apply Z.mod_small. lia. }
  refine (conj _ (conj Hsmall (conj Hbig _))).
  - apply Z.mod_pos_bound. lia.
  - destruct (Z_lt_le_dec (weight_ a + weight_ b) (2 ^ 64)) as [Hfit|Hov].
    + rewrite (Hsmall Hfit). lia.
    + rewrite (Hbig Hov). lia.
Qed.

Lemma add_weight_overflow_witness :
  is_uint64 (weight_ (add (Centroid 1%R (2 ^ 63)) (Centroid 4%R (2 ^ 63)))).
Proof.
  apply (add_weight_overflow (Centroid 1%R (2 ^ 63)) (Centroid 4%R (2 ^ 63)));
    unfold is_uint64; cbn; lia.
Defined.

Lemma weights_sum_nonneg {T : Type} (l : list (centroid T)) :
  Forall (fun c => 0 <= weight_ c) l -> 0 <= sum_weights l.
Proof. induction 1; cbn; lia. Qed.

Lemma add_all_exact (l : list (centroid R)) :
  forall cur : centroid R,
    1 <= weight_ cur -> Forall (fun c => 0 <= weight_ c) l ->
    weight_ cur + sum_weights l < 2 ^ 64 ->
    weight_ (add_all cur l) = weight_ cur + sum_weights l
    /\ moment (add_all cur l) = (moment cur + sum_moments l)%R.
Proof.
  induction l as [|c l IH]; intros cur Hcur Hl Hfit.
  - cbn. split; [lia | lra].
  - apply Forall_cons_iff in Hl. destruct Hl as [Hc Hl].
    pose proof (weights_sum_nonneg l Hl) as Hnn.
    cbn [sum_weights] in Hfit.
    destruct (add_moment_exact cur c) as [Hw Hm]; [lia | exact Hc | lia |].
    unfold add_all in *. cbn [fold_left].
    destruct (IH (add cur c)) as [IHw IHm]; [lia | exact Hl | lia |].
    rewrite IHw, IHm, Hw, Hm. cbn [sum_weights sum_moments]. split; [lia | lra].
Qed.

(** X23: a run of [add] calls computes the weighted mean of everything
    it absorbed: starting from a centroid of weight at least 1, the
    result's weight is the total weight and its mean is the total
    weight-times-mean divided by the total weight, while the total
    fits 64 bits. *)
Theorem add_all_weighted_mean (cur : centroid R) (l : list (centroid R)) :
  1 <= weight_ cur -> Forall (fun c => 0 <= weight_ c) l ->
  weight_ cur + sum_weights l < 2 ^ 64 ->
  weight_ (add_all cur l) = weight_ cur + sum_weights l
  /\ mean_ (add_all cur l)
     = ((moment cur + sum_moments l) / IZR (weight_ cur + sum_weights l))%R.
Proof.
  intros Hcur Hl Hfit.
  destruct (add_all_exact l cur Hcur Hl Hfit) as [Hw Hm].
  split; [exact Hw|]. rewrite <- Hm, <- Hw. unfold moment.
  pose proof (weights_sum_nonneg l Hl) as Hnn.
  field. apply not_0_IZR. lia.
Qed.

Lemma add_all_weighted_mean_witness :
  weight_ (add_all (Centroid 1%R 1) [Centroid 2%R 1; Centroid 3%R 2])
  = 1 + sum_weights [Centroid 2%R 1; Centroid 3%R 2]
  /\ mean_ (add_all (Centroid 1%R 1) [Centroid 2%R 1; Centroid 3%R 2])
     = ((moment (Centroid 1%R 1)
         + sum_moments [Centroid 2%R 1; Centroid 3%R 2])
        / IZR (1 + sum_weights [Centroid 2%R 1; Centroid 3%R 2]))%R.
Proof.
  apply (add_all_weighted_mean (Centroid 1%R 1)
           [Centroid 2%R 1; Centroid 3%R 2]).
  - cbn. lia.
  - repeat constructor; cbn; lia.
  - cbn. lia.
Defined.

Lemma sum_weights_perm {T : Type} (l l' : list (centroid T)) :
  Permutation l l' -> sum_weights l = sum_weights l'.
Proof. induction 1; cbn; lia. Qed.

Lemma sum_moments_perm (l l' : list (centroid R)) :
  Permutation l l' -> sum_moments l = sum_moments l'.
Proof. induction 1; cbn; lra. Qed.

(** X24: the order in which a run of centroids is absorbed does not
    matter: any rearrangement of the run gives the same centroid. *)
Theorem add_all_any_order (cur : centroid R) (l l' : list (centroid R)) :
  1 <= weight_ cur -> Forall (fun c => 0 <= weight_ c) l ->
  weight_ cur + sum_weights l < 2 ^ 64 ->
  Permutation l l' ->
  add_all cur l = add_all cur l'.
Proof.
  intros Hcur Hl Hfit Hp.
  assert (Hl' : Forall (fun c => 0 <= weight_ c) l').
  { eapply Permutation_Forall; eassumption. }
  pose proof (sum_weights_perm _ _ Hp) as Ew.
  pose proof (sum_moments_perm _ _ Hp) as Em.
  destruct (add_all_exact l cur Hcur Hl Hfit) as [Hw Hm].
  destruct (add_all_exact l' cur Hcur Hl') as [Hw' Hm']; [lia|].
  pose proof (weights_sum_nonneg l Hl) as Hnn.
  destruct (add_all cur l) as [m w], (add_all cur l') as [m' w'].
  unfold moment in Hm, Hm'. cbn [mean_ weight_] in *.
  assert (Ew' : w' = w) by lia. rewrite Ew' in *. clear Ew' Hw'.
  assert (Hd : IZR w <> 0%R) by (apply not_0_IZR; lia).
  assert (Emm : m = m').
  { apply Rmult_eq_reg_l with (r := IZR w); [|exact Hd]. rewrite Hm, Hm'. lra. }
  now rewrite Emm.
Qed.

Lemma add_all_any_order_witness :
  add_all (Centroid 1%R 1) [Centroid 2%R 1; Centroid 3%R 2]
  = add_all (Centroid 1%R 1) [Centroid 3%R 2; Centroid 2%R 1].
Proof.
  apply (add_all_any_order (Centroid 1%R 1)
           [Centroid 2%R 1; Centroid 3%R 2] [Centroid 3%R 2; Centroid 2%R 1]).
  - cbn. lia.
  - repeat constructor; cbn; lia.
  - cbn. lia.
  - apply perm_swap.
Defined.

Lemma insert_sorted_perm {A : Type} (lt : A -> A -> bool) x l :
  Permutation (x :: l) (insert_sorted lt x l).
Proof.
  induction l as [|y l IH]; cbn; [reflexivity|].
  destruct (lt y x); [|reflexivity].
  rewrite perm_swap. now constructor.
Qed.

Lemma stable_sort_perm {A : Type} (lt : A -> A -> bool) l :
  Permutation l (stable_sort lt l).
Proof.
  unfold stable_sort. induction l as [|x l IH]; cbn [fold_right]; [constructor|].
  rewrite <- insert_sorted_perm. now constructor.
Qed.

Lemma insert_sorted_filter m (x : centroid R) l :
  filter (has_mean m) (insert_sorted centroid_cmp x l)
  = filter (has_mean m) (x :: l).
Proof.
  induction l as [|y l IH]; [reflexivity|].
  cbn [insert_sorted]. destruct (centroid_cmp y x) eqn:E; [|reflexivity].
  cbn [filter] in *. rewrite IH.
  assert (Hlt : (mean_ y < mean_ x)%R).
  { revert E. unfold centroid_cmp, get_mean. cbn [Tltb R_FloatType].
    unfold Rltb. destruct (Rlt_dec _ _); [trivial | discriminate]. }
  unfold has_mean, Reqb.
  destruct (Req_dec_T (mean_ y) m), (Req_dec_T (mean_ x) m);
    try reflexivity. lra.
Qed.

(** X25: a stable sort under [centroid_cmp] puts the centroids in
    non-decreasing order of mean, keeps every one of them, and leaves
    the centroids of each mean in the order they came in. *)
Theorem stable_sort_by_mean (l : list (centroid R)) :
  Sorted Rle (map mean_ (stable_sort centroid_cmp l))
  /\ Permutation l (stable_sort centroid_cmp l)
  /\ (forall m, filter (has_mean m) (stable_sort centroid_cmp l)
                = filter (has_mean m) l).
Proof.
  refine (conj _ (conj _ _)).
  - apply ordered_means. apply (stable_sort_ordered false).
  - apply stable_sort_perm.
  - intros m. unfold stable_sort.
    induction l as [|x l IH]; cbn [fold_right]; [reflexivity|].
    rewrite insert_sorted_filter. cbn [filter]. now rewrite IH.
Qed.

End CentroidAlgebra.
